(** * Semantic weight engine of SDIPR-Git-Analysis ([semantic_analysis.py])

    A shallow embedding of the structure builder ([_parse_structure]), the
    weight scorer ([compute_weight]), the analyzer registry
    ([load_semantic_parser]) and the batch driver, followed by the
    properties of the specification that hold or fail on them.

    Conventions.
    - A Python [str] is a [string]; each [ascii] stands for the code point of
      the same number, so the text modelled is the one made of code points
      below 256.
    - A Python [int] is a [Z]; a Python [float] is a binary64 [float].
    - A Python exception is a value [Err e] of [result]; code that touches
      the interpreter-wide cache or starts a process runs in the monad [M].
    - Python objects that are mutated after they have been shared
      ([LangElement]) live in a [heap] and are named by their address. *)

From Stdlib Require Import ZArith String Ascii List Lia Bool.
From Stdlib Require Import Floats.
From stdpp Require Import base list strings gmap.

Local Open Scope Z_scope.
Local Open Scope string_scope.
Local Open Scope list_scope.

(** ** Exceptions *)

Inductive py_error : Type :=
  | IndexError
  | ValueError
  | AssertionError (msg : string)
  | CalledProcessError (returncode : Z)
  | UnicodeDecodeError
  | OSError (msg : string)
  | OverflowError.

Inductive result (A : Type) : Type :=
  | OK (a : A)
  | Err (e : py_error).
Arguments OK {A} a.
Arguments Err {A} e.

#[global] Instance result_ret : MRet result := λ A a, OK a.
#[global] Instance result_bind : MBind result := λ A B f r,
  match r with
  | OK a => f a
  | Err e => Err e
  end.
#[global] Instance result_fmap : FMap result := λ A B f r,
  match r with
  | OK a => OK (f a)
  | Err e => Err e
  end.

Definition is_OK {A} (r : result A) : bool :=
  match r with OK _ => true | Err _ => false end.

(** ** The [str] methods used by the line parser *)

Module PyStr.

(** [str.isspace] on one code point below 256: U+0009..U+000D,
    U+001C..U+0020, U+0085 and U+00A0. *)
Definition is_space (c : ascii) : bool :=
  let n := N_of_ascii c in
  ((9 <=? n) && (n <=? 13) || (28 <=? n) && (n <=? 32)
   || (n =? 133) || (n =? 160))%N.

Definition is_digit (c : ascii) : bool :=
  let n := N_of_ascii c in ((48 <=? n) && (n <=? 57))%N.

Definition digit_val (c : ascii) : Z := Z.of_N (N_of_ascii c) - 48.

Definition is_empty (s : string) : bool :=
  match s with EmptyString => true | String _ _ => false end.

(** [c in s] *)
Fixpoint contains (c : ascii) (s : string) : bool :=
  match s with
  | EmptyString => false
  | String a s' => Ascii.eqb a c || contains c s'
  end.

(** [s.count(c)] for a one-character [c] *)
Fixpoint count (c : ascii) (s : string) : nat :=
  match s with
  | EmptyString => O
  | String a s' => ((if Ascii.eqb a c then 1 else 0) + count c s')%nat
  end.

Fixpoint lstrip_by (p : ascii → bool) (s : string) : string :=
  match s with
  | EmptyString => EmptyString
  | String c s' => if p c then lstrip_by p s' else s
  end.

Fixpoint rstrip_by (p : ascii → bool) (s : string) : string :=
  match s with
  | EmptyString => EmptyString
  | String c s' =>
      let r := rstrip_by p s' in
      if is_empty r && p c then EmptyString else String c r
  end.

Definition lstrip (s : string) : string := lstrip_by is_space s.

Definition rstrip (s : string) : string := rstrip_by is_space s.

(** [s.strip()] *)
Definition strip (s : string) : string := rstrip (lstrip s).

(** [s.replace(old, new)] for a one-character [old] *)
Fixpoint replace (old : ascii) (new : string) (s : string) : string :=
  match s with
  | EmptyString => EmptyString
  | String c s' =>
      if Ascii.eqb c old then new ++ replace old new s'
      else String c (replace old new s')
  end.

(** The text before the first [sep] and, when there is one, the text
    after it. *)
Fixpoint partition (sep : ascii) (s : string) : string * option string :=
  match s with
  | EmptyString => (EmptyString, None)
  | String c s' =>
      if Ascii.eqb c sep then (EmptyString, Some s')
      else let '(h, t) := partition sep s' in (String c h, t)
  end.

(** [s.split(sep, maxsplit=1)] for a one-character [sep] *)
Definition split1 (sep : ascii) (s : string) : list string :=
  match partition sep s with
  | (h, None) => [h]
  | (h, Some t) => [h; t]
  end.

(** [s.split(sep)] for a one-character [sep]; the result is never empty. *)
Fixpoint split (sep : ascii) (s : string) : list string :=
  match s with
  | EmptyString => [EmptyString]
  | String c s' =>
      if Ascii.eqb c sep then EmptyString :: split sep s'
      else match split sep s' with
           | h :: t => String c h :: t
           | [] => [String c EmptyString]
           end
  end.

(** [l[i]] *)
Definition index {A} (l : list A) (i : nat) : result A :=
  match l !! i with
  | Some x => OK x
  | None => Err IndexError
  end.

(** The digits of a decimal literal, most significant first. A single
    underscore may separate two digits; [sep_ok] tells whether the text
    may stop, or an underscore may stand, at this point. *)
Fixpoint int_digits (s : string) (acc : Z) (sep_ok : bool) : option Z :=
  match s with
  | EmptyString => if sep_ok then Some acc else None
  | String c s' =>
      if is_digit c then int_digits s' (10 * acc + digit_val c) true
      else if Ascii.eqb c "_" then
        if sep_ok then int_digits s' acc false else None
      else None
  end.

(** The white space [int] skips around a literal: below U+0080 only
    U+0009..U+000D and the space, not U+001C..U+001F, which [strip] does
    remove; above, U+0085 and U+00A0. *)
Definition is_int_space (c : ascii) : bool :=
  let n := N_of_ascii c in
  ((9 <=? n) && (n <=? 13) || (n =? 32) || (n =? 133) || (n =? 160))%N.

(** The number of decimal digits in [s]. *)
Fixpoint digit_count (s : string) : N :=
  match s with
  | EmptyString => 0%N
  | String c s' => ((if is_digit c then 1 else 0) + digit_count s')%N
  end.

(** [sys.get_int_max_str_digits()]: the interpreter's default, which the
    program leaves as it is. *)
Definition int_max_str_digits : N := 4300%N.

(** [int(s)]: surrounding white space, one optional sign, decimal digits,
    no more of them than [int_max_str_digits]. *)
Definition int (s : string) : result Z :=
  let body (t : string) : option Z :=
    if (digit_count t <=? int_max_str_digits)%N then int_digits t 0 false
    else None in
  let r :=
    match rstrip_by is_int_space (lstrip_by is_int_space s) with
    | String c t =>
        if Ascii.eqb c "+" then body t
        else if Ascii.eqb c "-" then Z.opp <$> body t
        else body (String c t)
    | EmptyString => body EmptyString
    end in
  match r with
  | Some z => OK z
  | None => Err ValueError
  end.

(** [s.startswith(c)] for a one-character [c] *)
Definition startswith (c : ascii) (s : string) : bool :=
  match s with
  | String a _ => Ascii.eqb a c
  | EmptyString => false
  end.

(** [s.lstrip(c)] for a one-character [c] *)
Fixpoint lstrip_char (c : ascii) (s : string) : string :=
  match s with
  | EmptyString => EmptyString
  | String a s' => if Ascii.eqb a c then lstrip_char c s' else s
  end.

Definition cons_nonempty (w : string) (ws : list string) : list string :=
  if is_empty w then ws else w :: ws.

(** The word that starts the text, and the words after it. *)
Fixpoint words_from (s : string) : string * list string :=
  match s with
  | EmptyString => (EmptyString, [])
  | String c s' =>
      let '(w, ws) := words_from s' in
      if is_space c then (EmptyString, cons_nonempty w ws)
      else (String c w, ws)
  end.

(** [s.split()] *)
Definition split_ws (s : string) : list string :=
  let '(w, ws) := words_from s in cons_nonempty w ws.

(** The line boundaries of [str.splitlines] below U+0100. *)
Definition is_linebreak (c : ascii) : bool :=
  let n := N_of_ascii c in
  ((10 <=? n) && (n <=? 13) || (28 <=? n) && (n <=? 30) || (n =? 133))%N.

Fixpoint lines_from (s : string) : string * list string :=
  match s with
  | EmptyString => (EmptyString, [])
  | String c s' =>
      let '(w, ws) := lines_from s' in
      if is_linebreak c && negb (Ascii.eqb c "013" && startswith "010" s')
      then (String c EmptyString, cons_nonempty w ws)
      else (String c w, ws)
  end.

(** [s.splitlines(keepends=True)] *)
Definition splitlines_keepends (s : string) : list string :=
  let '(w, ws) := lines_from s in cons_nonempty w ws.

End PyStr.

(** ** [LangElement] objects

    The loop of [_parse_structure] keeps two names, [root] and [parent], for
    objects it goes on mutating, and every element stores a reference to its
    parent. The objects are therefore kept in a [heap], a list in order of
    allocation, and named by their position in it. *)

Definition ref : Type := nat.

Record LangElement : Type := mkLangElement {
  kind : string;
  parent : option ref;
  children : list ref;
  start : Z;
  end_ : Z
}.

Abbreviation heap := (list LangElement).

#[global] Instance LangElement_inhabited : Inhabited LangElement :=
  populate (mkLangElement "" None [] 0 0).

Module LangElement.

(** [LangElement.__init__] *)
Definition __init__ (kind : string) (parent : option ref)
    (children : list ref) : LangElement :=
  {| kind := kind; parent := parent; children := children;
     start := 0; end_ := 0 |}.

Definition with_start (v : Z) (e : LangElement) : LangElement :=
  {| kind := kind e; parent := parent e; children := children e;
     start := v; end_ := end_ e |}.

Definition with_end (v : Z) (e : LangElement) : LangElement :=
  {| kind := kind e; parent := parent e; children := children e;
     start := start e; end_ := v |}.

Definition with_child (c : ref) (e : LangElement) : LangElement :=
  {| kind := kind e; parent := parent e; children := children e ++ [c];
     start := start e; end_ := end_ e |}.

(** [LangElement.in_range] *)
Definition in_range (self : LangElement) (start0 end0 : Z) : bool :=
  ((start self <=? start0) && (end_ self >=? end0))%Z.

End LangElement.

(** Heap operations: [LangElement(...)], [r.start = v], [r.end = v] and
    [r.children.append(c)]. *)
Definition alloc (e : LangElement) (h : heap) : ref * heap :=
  (length h, h ++ [e]).

Definition set_start (r : ref) (v : Z) (h : heap) : heap :=
  alter (LangElement.with_start v) r h.

Definition set_end (r : ref) (v : Z) (h : heap) : heap :=
  alter (LangElement.with_end v) r h.

Definition children_append (r : ref) (c : ref) (h : heap) : heap :=
  alter (LangElement.with_child c) r h.

(** The objects a list of references names. *)
Definition deref (h : heap) (rs : list ref) : list LangElement :=
  omap (λ r, h !! r) rs.

(** ** The structure builder *)

Module LangSemantics.

(** Lines 114-118: one output line to [(kind, start, end)]. *)
Definition parse_line (line : string) : result (string * Z * Z) :=
  let split := PyStr.split1 "-" line in
  s0 ← PyStr.index split 0;
  let kind := PyStr.strip s0 in
  s1 ← PyStr.index split 1;
  let ranges :=
    PyStr.split "-"
      (PyStr.replace "]" "" (PyStr.replace "[" "" (PyStr.strip s1))) in
  r0 ← PyStr.index ranges 0;
  start ← PyStr.int r0;
  r1 ← PyStr.index ranges 1;
  end0 ← PyStr.int r1;
  mret (kind, start, end0).

(** The two local names of the loop: [root] never changes and is the
    first object allocated; [parent] is the anchor. *)
Definition root : ref := 0%nat.

Record loop_state : Type := mkLoop {
  objects : heap;
  anchor : ref
}.

(** [root = parent = LangElement('root', None, [])] *)
Definition loop_init : loop_state :=
  let '(r, h) := alloc (LangElement.__init__ "root" None []) [] in
  {| objects := h; anchor := r |}.

(** Lines 119-129: what one iteration does once the line is parsed. *)
Definition attach (st : loop_state) (kind : string) (start0 end0 : Z)
    : loop_state :=
  let parent := anchor st in
  let '(elem, h) :=
    alloc (LangElement.__init__ kind (Some parent) []) (objects st) in
  let h := set_start elem start0 h in
  let h := set_end elem end0 h in
  let h := if (end_ (h !!! root) <? end0)%Z then set_end root end0 h else h in
  if LangElement.in_range (h !!! parent) start0 end0 then
    {| objects := children_append parent elem h; anchor := parent |}
  else
    let h := children_append root elem h in
    {| objects := h;
       anchor := if String.eqb kind "class" then elem else parent |}.

Definition loop_body (st : loop_state) (line : string) : result loop_state :=
  '(kind, start0, end0) ← parse_line line;
  mret (attach st kind start0 end0).

(** [for line in lines: ...], left by the first exception. *)
Fixpoint loop (st : loop_state) (lines : list string) : result loop_state :=
  match lines with
  | [] => OK st
  | line :: rest =>
      match loop_body st line with
      | OK st' => loop st' rest
      | Err e => Err e
      end
  end.

(** [LangSemantics._parse_structure]: the heap returned holds the tree,
    and the object returned by the Python function is the one at address
    [root]. *)
Definition _parse_structure (lines : list string) : result heap :=
  st ← loop loop_init lines;
  mret (objects st).

End LangSemantics.

(** ** Python numbers in the scorer

    The scorer compares and combines [int] values (offsets and counts) with
    the numbers of the weight model, which are [float]s here. *)

Module PyNum.

(** [float(z)], rounding to the nearest binary64 value, ties to even. An
    [int] too large for a [float] gives [infinity] here and an
    [OverflowError] in Python; the only integers converted are built from
    list lengths, which are far below that size. *)
Definition float_of_int (z : Z) : float :=
  SF2Prim (binary_normalize prec emax z 0%Z false).

(** The exact comparison of an [int] with a [float]; [None] when the
    [float] is a NaN. *)
Definition int_compare_float (z : Z) (f : float) : option comparison :=
  match Prim2SF f with
  | S754_nan => None
  | S754_zero _ => Some (z ?= 0)%Z
  | S754_infinity neg => Some (if neg then Gt else Lt)
  | S754_finite neg m e =>
      let v := if neg then Z.neg m else Z.pos m in
      Some (if (0 <=? e)%Z then (z ?= v * 2 ^ e)%Z
            else (z * 2 ^ (- e) ?= v)%Z)
  end.

(** [z > f] *)
Definition int_gt_float (z : Z) (f : float) : bool :=
  match int_compare_float z f with Some Gt => true | _ => false end.

(** [z < f] *)
Definition int_lt_float (z : Z) (f : float) : bool :=
  match int_compare_float z f with Some Lt => true | _ => false end.

(** [f * z], [f - z] with [z] an [int]: the [int] is converted first. *)
Definition float_mul_int (f : float) (z : Z) : float :=
  (f * float_of_int z)%float.

(** The literals of [compute_weight]. *)
Definition f0_2 : float := 0x1.999999999999ap-3%float.   (* 0.2 *)
Definition f0_1 : float := 0x1.999999999999ap-4%float.   (* 0.1 *)
Definition f0_05 : float := 0x1.999999999999ap-5%float.  (* 0.05 *)

End PyNum.

(** ** The weight model

    Modelled from the spec: the class [SemanticWeightModel] (module
    [semantic_weight_model]) is missing from the sources. The record has the
    attributes [compute_weight] reads, "a bundle of numeric thresholds and
    multipliers" (spec, section 3), each a [float]; an attribute that holds
    an [int] in Python behaves as the [float] of the same value as long as
    that value is representable. *)
Record SemanticWeightModel : Type := mkSemanticWeightModel {
  base_length_weight : float;
  base_class_weight : float;
  base_function_weight : float;
  base_property_or_field_weight : float;
  length_upper_limit : float;
  length_upper_limit_multiplier : float;
  length_lower_limit : float;
  length_lower_limit_multiplier : float;
  class_upper_limit : float;
  class_upper_limit_multiplier : float;
  function_upper_limit : float;
  function_upper_limit_multiplier : float;
  function_lower_limit : float;
  function_lower_limit_multiplier : float;
  property_field_upper_limit : float;
  property_field_upper_limit_multiplier : float;
  property_field_lower_limit : float;
  property_field_lower_limit_multiplier : float
}.

(** Modelled from the spec: [SemanticWeightModel()], the constructor without
    arguments, missing from the sources; "a zero-valued [WeightModel]"
    (spec, section 4.5). *)
Definition SemanticWeightModel_default : SemanticWeightModel :=
  mkSemanticWeightModel 0 0 0 0 0 0 0 0 0 0 0 0 0 0 0 0 0 0.

(** ** The weight scorer *)

Module Scorer.

Import PyNum.

Section with_heap.

Variable h : heap.

(** The object [self] and its children, in order. *)
Definition self_and_children (self : ref) : list LangElement :=
  (h !!! self) :: deref h (children (h !!! self)).

Definition of_kind (k : string) (l : list LangElement) : list LangElement :=
  filter (λ x, kind x = k) l.

(** The properties [classes], [functions], [fields], [properties] and
    [comments] of [LangElement], as the lists the iterators yield. *)
Definition classes (self : ref) : list LangElement :=
  of_kind "class" (self_and_children self).

Definition functions (self : ref) : list LangElement :=
  of_kind "function" (deref h (children (h !!! self))).

Definition fields (self : ref) : list LangElement :=
  of_kind "field" (deref h (children (h !!! self))).

Definition properties (self : ref) : list LangElement :=
  of_kind "property" (deref h (children (h !!! self))).

Definition comments (self : ref) : list LangElement :=
  of_kind "comment" (deref h (children (h !!! self))).

(** [LangElement.compute_weight] *)
Definition compute_weight (self : ref) (weight_model : SemanticWeightModel)
    : float :=
  let total_length_multiplier := 1%float in
  let class_count_multiplier := 1%float in
  let function_count_multiplier := 1%float in
  let property_or_field_count_multiplier := 1%float in
  let weight := 0%float in
  let base_length_weight := base_length_weight weight_model in
  let base_class_weight := base_class_weight weight_model in
  let base_function_weight := base_function_weight weight_model in
  let base_property_or_field_weight :=
    base_property_or_field_weight weight_model in
  let total_length_multiplier :=
    if int_gt_float (end_ (h !!! self)) (length_upper_limit weight_model)
    then length_upper_limit_multiplier weight_model
    else if int_lt_float (end_ (h !!! self))
              (length_lower_limit weight_model)
    then length_lower_limit_multiplier weight_model
    else total_length_multiplier in
  let weight := (weight + base_length_weight * total_length_multiplier)%float in
  let class_count := Z.of_nat (length (classes self)) in
  let class_count_multiplier :=
    if int_gt_float class_count (class_upper_limit weight_model)
    then (class_upper_limit_multiplier weight_model
          - float_mul_int f0_2 (class_count - 1))%float
    else class_count_multiplier in
  let weight := (weight + base_class_weight * class_count_multiplier)%float in
  let function_count := Z.of_nat (length (functions self)) in
  let function_count_multiplier :=
    if int_gt_float function_count (function_upper_limit weight_model)
    then (function_upper_limit_multiplier weight_model
          - float_mul_int f0_05 (function_count - 20))%float
    else if int_lt_float function_count
              (function_lower_limit weight_model)
    then (function_lower_limit_multiplier weight_model
          - float_mul_int f0_1 (4 - function_count))%float
    else function_count_multiplier in
  let weight :=
    (weight + base_function_weight * function_count_multiplier)%float in
  let property_or_field_count :=
    Z.of_nat (length (fields self ++ properties self)) in
  let property_or_field_count_multiplier :=
    if int_gt_float property_or_field_count
         (property_field_upper_limit weight_model)
    then (property_field_upper_limit_multiplier weight_model
          - float_mul_int f0_05 (property_or_field_count - 20))%float
    else if int_lt_float property_or_field_count
              (property_field_lower_limit weight_model)
    then (property_field_lower_limit_multiplier weight_model
          - float_mul_int f0_05 (4 - property_or_field_count))%float
    else property_or_field_count_multiplier in
  let weight :=
    (weight
     + base_property_or_field_weight
       * property_or_field_count_multiplier)%float in
  weight.

End with_heap.

End Scorer.

(** ** Paths

    A [pathlib.Path] is the list of its parts, outermost first; an absolute
    path starts with the part ["/"]. *)

Module Path.

Definition t : Type := list string.

(** [p.name] *)
Definition name (p : t) : string :=
  match last p with
  | Some n => if String.eqb n "/" then "" else n
  | None => ""
  end.

(** [p.suffix]: the text from the last dot of the name on, when that dot
    is neither the first nor the last character of the name. *)
Definition suffix (p : t) : string :=
  let pieces := PyStr.split "." (name p) in
  match last pieces with
  | Some ext =>
      if PyStr.is_empty ext then ""
      else match pieces with
           | [] | [_] => ""
           | [first; _] =>
               if PyStr.is_empty first then "" else String "." ext
           | _ => String "." ext
           end
  | None => ""
  end.

(** [p / part], for a [part] that holds no separator. *)
Definition joinpath (p : t) (part : string) : t := p ++ [part].

(** [p.parent]: the root is its own parent, and so is the empty path. *)
Definition parent (p : t) : t :=
  match p with
  | [] => []
  | [first] => if String.eqb first "/" then p else []
  | _ => removelast p
  end.

Definition is_absolute (p : t) : bool :=
  match p with
  | first :: _ => String.eqb first "/"
  | [] => false
  end.

(** [p.absolute()], with the working directory [cwd] *)
Definition absolute (cwd : t) (p : t) : t :=
  if is_absolute p then p else cwd ++ p.

(** [str(p)] *)
Definition str (p : t) : string :=
  match p with
  | [] => "."
  | first :: rest =>
      if String.eqb first "/" then String "/" (String.concat "/" rest)
      else String.concat "/" p
  end.

End Path.

Declare Scope path_scope.
Delimit Scope path_scope with path.
Infix "/" := Path.joinpath : path_scope.

(** Modelled from the spec: the class [lib.FileGroup] is missing from the
    sources; "ordered file groups (lists of file paths)" (spec, section 6).
    The engine reads its attribute [files]. *)
Record FileGroup : Type := mkFileGroup {
  files : list Path.t
}.

(** [class LangSemantics]: the attributes set by [__init__]. *)
Record LangSemanticsObj : Type := mkLangSemantics {
  lang_dir : Path.t;
  tool : string
}.

(** ** The world outside the interpreter *)

(** What [subprocess.run] gets back from the process: its exit status and
    the bytes of its standard output. *)
Record CompletedProcess : Type := mkCompleted {
  returncode : Z;
  stdout : string
}.

(** The surroundings of one run, which the engine only reads. *)
Record Env : Type := mkEnv {
  (** [Path(__file__).parent] *)
  module_dir : Path.t;
  (** the working directory *)
  cwd : Path.t;
  (** [p.exists()] *)
  path_exists : Path.t → bool;
  (** [p.read_text(encoding="utf-8-sig")] *)
  read_text : Path.t → result string;
  (** the process started for an argument list in a working directory *)
  run_process : list string → Path.t → CompletedProcess;
  (** [b.decode("utf-8")] *)
  decode_utf8 : string → result string;
  (** [SemanticWeightModel.parse(file)], missing from the sources *)
  SemanticWeightModel_parse : Path.t → result SemanticWeightModel
}.

(** Lines written by [print]. *)
Inductive printed_line : Type :=
  | ProgressLine (counter total_groups : nat)
  | DoneLine.

(** The state the engine changes: the module-level dictionary
    [SEMANTIC_ANALYZERS], the processes started so far (latest last), and
    the lines printed. *)
Record World : Type := mkWorld {
  SEMANTIC_ANALYZERS : gmap string LangSemanticsObj;
  started : list (list string * Path.t);
  printed : list printed_line
}.

Definition M (A : Type) : Type := World → result A * World.

#[global] Instance M_ret : MRet M := λ A a w, (OK a, w).
#[global] Instance M_bind : MBind M := λ A B f m w,
  match m w with
  | (OK a, w') => f a w'
  | (Err e, w') => (Err e, w')
  end.

Definition raise {A} (e : py_error) : M A := λ w, (Err e, w).

Definition lift {A} (r : result A) : M A := λ w, (r, w).

Definition get_analyzers : M (gmap string LangSemanticsObj) :=
  λ w, (OK (SEMANTIC_ANALYZERS w), w).

Definition set_analyzer (extension : string) (s : LangSemanticsObj) : M unit :=
  λ w, (OK tt, {| SEMANTIC_ANALYZERS := <[extension := s]> (SEMANTIC_ANALYZERS w);
                  started := started w; printed := printed w |}).

Definition note_started (args : list string) (dir : Path.t) : M unit :=
  λ w, (OK tt, {| SEMANTIC_ANALYZERS := SEMANTIC_ANALYZERS w;
                  started := started w ++ [(args, dir)];
                  printed := printed w |}).

(** [print(...)] on a standard output that takes the line: a stream that
    is closed, or that cannot encode the line, raises instead, and that
    case is left out here. What is proved of a verbose run that returns
    holds of the program as it is; of a verbose run that raises, only
    under this assumption. *)
Definition print (l : printed_line) : M unit :=
  λ w, (OK tt, {| SEMANTIC_ANALYZERS := SEMANTIC_ANALYZERS w;
                  started := started w; printed := printed w ++ [l] |}).

(** ** Registry, invoker and batch driver *)

Section Engine.

Variable env : Env.

Local Open Scope path_scope.

Definition LANG_SEMANTICS_PATH : Path.t := module_dir env / "lang-semantics".

(** [subprocess.run(args, check=True, cwd=dir, stdout=PIPE, shell=True)]
    where the shell can be started in [dir] with [args]: one process is
    started, and an exit status other than 0 raises [CalledProcessError].
    A call that raises before any process exists (a [cwd] that is missing,
    an argument with a NUL character) is left out here; what is proved of
    a process by its exit status or its output holds of the program as it
    is. *)
Definition subprocess_run_check (args : list string) (dir : Path.t)
    : M CompletedProcess :=
  _ ← note_started args dir;
  let process := run_process env args dir in
  if (returncode process =? 0)%Z then mret process
  else raise (CalledProcessError (returncode process)).

(** Line 103: the argument list of the analyzer process. *)
Definition analyzer_args (self : LangSemanticsObj) (file : Path.t)
    : list string :=
  PyStr.split_ws (tool self)
  ++ [Path.str (Path.parent (lang_dir self) / "declarations.json");
      Path.str file].

(** [LangSemantics.analyze] *)
Definition analyze (self : LangSemanticsObj) (file : Path.t)
    : M (SemanticWeightModel * heap) :=
  let args := analyzer_args self file in
  process ← subprocess_run_check args (lang_dir self);
  output ← lift (decode_utf8 env (stdout process));
  let lines := PyStr.splitlines_keepends output in
  structure ← lift (LangSemantics._parse_structure lines);
  model ← lift (SemanticWeightModel_parse env file);
  mret (model, structure).

(** [load_semantic_parser] *)
Definition load_semantic_parser (file : Path.t) : M (option LangSemanticsObj) :=
  let extension := PyStr.lstrip_char "." (Path.suffix file) in
  let extension :=
    if PyStr.is_empty extension && PyStr.startswith "." (Path.name file)
    then Path.name file else extension in
  if PyStr.is_empty extension then mret None
  else
    analyzers ← get_analyzers;
    match analyzers !! extension with
    | Some semantics => mret (Some semantics)
    | None =>
        let lang_folder := LANG_SEMANTICS_PATH / extension in
        if negb (path_exists env lang_folder) then mret None
        else
          let target_file := lang_folder / "target" in
          executable ← lift (read_text env target_file);
          let full_path := Path.absolute (cwd env) lang_folder in
          let semantics := mkLangSemantics full_path executable in
          _ ← set_analyzer extension semantics;
          mret (Some semantics)
    end.

(** [has_semantic_parser] *)
Definition has_semantic_parser (file : Path.t) : M bool :=
  semantics ← load_semantic_parser file;
  mret (bool_decide (semantics ≠ None)).

(** [compute_semantic_weight], with assertions enabled, as they are unless
    the interpreter runs with [-O]. *)
Definition compute_semantic_weight (file : Path.t)
    : M (SemanticWeightModel * heap) :=
  semantics ← load_semantic_parser file;
  match semantics with
  | None => raise (AssertionError ("No semantic parser for " ++ Path.str file))
  | Some semantics => analyze semantics file
  end.

(** The body of the loop of [compute_semantic_weight_grouped]: the pair
    appended to [ret] for one file. *)
Definition grouped_body (file : Path.t) : M (SemanticWeightModel * heap) :=
  let abs_file := Path.absolute (cwd env) file in
  b ← has_semantic_parser abs_file;
  if b : bool then
    sem_w ← compute_semantic_weight abs_file;
    mret sem_w
  else
    mret (SemanticWeightModel_default,
          [LangElement.__init__ "root" None []]).

(** [compute_semantic_weight_grouped] *)
Definition compute_semantic_weight_grouped (file_group : FileGroup)
    : M (list (SemanticWeightModel * heap)) :=
  mapM grouped_body (files file_group).

(** The loop of [compute_semantic_weight_result], with its counter. *)
Fixpoint result_loop (verbose : bool) (total_groups : nat) (counter : nat)
    (groups : list FileGroup)
    : M (list (list (SemanticWeightModel * heap))) :=
  match groups with
  | [] => mret []
  | group :: rest =>
      grouped_semantic_weight ← compute_semantic_weight_grouped group;
      counter' ← (if verbose
                  then _ ← print (ProgressLine counter total_groups);
                       mret (S counter)
                  else mret counter);
      ret ← result_loop verbose total_groups counter' rest;
      mret (grouped_semantic_weight :: ret)
  end.

(** [compute_semantic_weight_result] *)
Definition compute_semantic_weight_result (file_group : list FileGroup)
    (verbose : bool) : M (list (list (SemanticWeightModel * heap))) :=
  let total_groups := length file_group in
  ret ← result_loop verbose total_groups 1 file_group;
  _ ← (if verbose then print DoneLine else mret tt);
  mret ret.

End Engine.

(** ** The specification's side

    Definitions that follow the words of the specification, to be compared
    with the code above. *)

(** The output grammar of section 4.3,
    [<kind><ws>-<ws>[<start>-<end>]]: the kind is an identifier, [start]
    and [end] are integers, white space is tolerated around the kind, the
    separator, the brackets and the numbers. *)
Module Grammar.

Definition is_letter (c : ascii) : bool :=
  let n := N_of_ascii c in
  ((65 <=? n) && (n <=? 90) || (97 <=? n) && (n <=? 122) || (n =? 95))%N.

Definition skip_ws (s : string) : string := PyStr.lstrip s.

Fixpoint skip_while (p : ascii → bool) (s : string) : string :=
  match s with
  | EmptyString => EmptyString
  | String c s' => if p c then skip_while p s' else s
  end.

Definition expect (c : ascii) (s : string) : option string :=
  match s with
  | String a s' => if Ascii.eqb a c then Some s' else None
  | EmptyString => None
  end.

Definition take_ident (s : string) : option string :=
  match s with
  | String c s' =>
      if is_letter c
      then Some (skip_while (λ a, is_letter a || PyStr.is_digit a) s')
      else None
  | EmptyString => None
  end.

Definition take_digits (s : string) : option string :=
  match s with
  | String c s' =>
      if PyStr.is_digit c then Some (skip_while PyStr.is_digit s') else None
  | EmptyString => None
  end.

Definition take_integer (s : string) : option string :=
  match s with
  | String c s' => if Ascii.eqb c "-" then take_digits s' else take_digits s
  | EmptyString => None
  end.

Definition line_rest (l : string) : option unit :=
  s ← take_ident (skip_ws l);
  s ← expect "-" (skip_ws s);
  s ← expect "[" (skip_ws s);
  s ← take_integer (skip_ws s);
  s ← expect "-" (skip_ws s);
  s ← take_integer (skip_ws s);
  s ← expect "]" (skip_ws s);
  if PyStr.is_empty (skip_ws s) then Some tt else None.

(** The line conforms to the grammar. *)
Definition conforms (l : string) : bool := bool_decide (is_Some (line_rest l)).

End Grammar.

(** The scoring table of section 4.4: four independent terms, each
    [baseWeight * multiplier], and their sum. *)
Module ScoreSpec.

Import PyNum.

Definition length_multiplier (end0 : Z) (m : SemanticWeightModel) : float :=
  if int_gt_float end0 (length_upper_limit m)
  then length_upper_limit_multiplier m
  else if int_lt_float end0 (length_lower_limit m)
  then length_lower_limit_multiplier m
  else 1%float.

Definition class_multiplier (count : Z) (m : SemanticWeightModel) : float :=
  if int_gt_float count (class_upper_limit m)
  then (class_upper_limit_multiplier m - f0_2 * float_of_int (count - 1))%float
  else 1%float.

Definition function_multiplier (count : Z) (m : SemanticWeightModel) : float :=
  if int_gt_float count (function_upper_limit m)
  then (function_upper_limit_multiplier m
        - f0_05 * float_of_int (count - 20))%float
  else if int_lt_float count (function_lower_limit m)
  then (function_lower_limit_multiplier m
        - f0_1 * float_of_int (4 - count))%float
  else 1%float.

Definition property_field_multiplier (count : Z) (m : SemanticWeightModel)
    : float :=
  if int_gt_float count (property_field_upper_limit m)
  then (property_field_upper_limit_multiplier m
        - f0_05 * float_of_int (count - 20))%float
  else if int_lt_float count (property_field_lower_limit m)
  then (property_field_lower_limit_multiplier m
        - f0_05 * float_of_int (4 - count))%float
  else 1%float.

(** The sum of a list of terms, from [0.0], left to right. *)
Definition sum (terms : list float) : float :=
  fold_left PrimFloat.add terms 0%float.

(** The count sources, read off a heap: the views are not recursive. *)
Definition count_kind (h : heap) (k : string) (rs : list ref) : Z :=
  Z.of_nat (length (filter (λ x, kind x = k) (deref h rs))).

Definition class_count (h : heap) (self : ref) : Z :=
  ((if bool_decide (kind (h !!! self) = "class") then 1 else 0)
   + count_kind h "class" (children (h !!! self)))%Z.

Definition function_count (h : heap) (self : ref) : Z :=
  count_kind h "function" (children (h !!! self)).

Definition property_field_count (h : heap) (self : ref) : Z :=
  (count_kind h "field" (children (h !!! self))
   + count_kind h "property" (children (h !!! self)))%Z.

Definition terms (h : heap) (self : ref) (m : SemanticWeightModel)
    : list float :=
  [ (base_length_weight m * length_multiplier (end_ (h !!! self)) m)%float;
    (base_class_weight m * class_multiplier (class_count h self) m)%float;
    (base_function_weight m
     * function_multiplier (function_count h self) m)%float;
    (base_property_or_field_weight m
     * property_field_multiplier (property_field_count h self) m)%float ].

Definition score (h : heap) (self : ref) (m : SemanticWeightModel) : float :=
  sum (terms h self m).

End ScoreSpec.

(** The heap in which every parsed element hangs directly under the root. *)
Definition flat_element (x : string * Z * Z) : LangElement :=
  let '(k, s, e) := x in
  {| kind := k; parent := Some LangSemantics.root; children := [];
     start := s; end_ := e |}.

Definition max_end (elems : list (string * Z * Z)) : Z :=
  fold_left (λ acc x, Z.max acc (snd x)) elems 0%Z.

Definition flat_root (elems : list (string * Z * Z)) : LangElement :=
  {| kind := "root"; parent := None; children := seq 1 (length elems);
     start := 0; end_ := max_end elems |}.

Definition flat_heap (elems : list (string * Z * Z)) : heap :=
  flat_root elems :: map flat_element elems.

(** The element at address [i] lies in the [children] list of the element at
    address [c]. *)
Definition child_of (h : heap) (i c : ref) : Prop :=
  ∃ x, h !! c = Some x ∧ i ∈ children x.

(** The fallback pair of [compute_semantic_weight_grouped]. *)
Definition fallback_pair : SemanticWeightModel * heap :=
  (SemanticWeightModel_default, [LangElement.__init__ "root" None []]).

(** The key under which [load_semantic_parser] looks a file up. *)
Definition extension_of (file : Path.t) : string :=
  let extension := PyStr.lstrip_char "." (Path.suffix file) in
  if PyStr.is_empty extension && PyStr.startswith "." (Path.name file)
  then Path.name file else extension.

(** No analyzer resolves for [file] in the world [w]: the file has no
    extension, or its extension is neither cached nor a directory of
    [lang-semantics]. *)
Definition no_analyzer (env : Env) (w : World) (file : Path.t) : Prop :=
  let extension := extension_of (Path.absolute (cwd env) file) in
  extension = "" ∨
  (SEMANTIC_ANALYZERS w !! extension = None ∧
   path_exists env (Path.joinpath (LANG_SEMANTICS_PATH env) extension) = false).

(** The world [w'] differs from [w] at most by cached analyzers for
    extensions that have a directory under [lang-semantics]. *)
Definition cache_grown (env : Env) (w w' : World) : Prop :=
  ∀ extension,
    path_exists env (Path.joinpath (LANG_SEMANTICS_PATH env) extension) = false →
    SEMANTIC_ANALYZERS w' !! extension = SEMANTIC_ANALYZERS w !! extension.


(** ** Sample inputs *)

Definition four_lines : list string :=
  ["class - [0-100]"; "function - [10-20]"; "function - [30-40]";
   "class - [110-120]"].

(** A root with seven classes under it. *)
Definition seven_classes : heap :=
  flat_heap (replicate 7 ("class", 0%Z, 1%Z)).

(** A model with no negative number in it: only the class term weighs. *)
Definition class_only_model : SemanticWeightModel :=
  {| base_length_weight := 0; base_class_weight := 1;
     base_function_weight := 0; base_property_or_field_weight := 0;
     length_upper_limit := 0; length_upper_limit_multiplier := 0;
     length_lower_limit := 0; length_lower_limit_multiplier := 0;
     class_upper_limit := 1; class_upper_limit_multiplier := 1;
     function_upper_limit := 0; function_upper_limit_multiplier := 0;
     function_lower_limit := 0; function_lower_limit_multiplier := 0;
     property_field_upper_limit := 0;
     property_field_upper_limit_multiplier := 0;
     property_field_lower_limit := 0;
     property_field_lower_limit_multiplier := 0 |}.

(** The model of the two scoring examples of section 8. *)
Definition example_model : SemanticWeightModel :=
  {| base_length_weight := 10; base_class_weight := 0;
     base_function_weight := 1; base_property_or_field_weight := 0;
     length_upper_limit := 100; length_upper_limit_multiplier := 0.5;
     length_lower_limit := 0; length_lower_limit_multiplier := 1;
     class_upper_limit := 100; class_upper_limit_multiplier := 1;
     function_upper_limit := 20; function_upper_limit_multiplier := 1;
     function_lower_limit := 0; function_lower_limit_multiplier := 1;
     property_field_upper_limit := 100;
     property_field_upper_limit_multiplier := 1;
     property_field_lower_limit := 0;
     property_field_lower_limit_multiplier := 1 |}.

(** A run in [/repo] of an engine installed in [/app], with one analyzer
    directory, [cs]. The analyzer prints the four lines for [good.cs] and
    fails, after some output, for any other file. *)
Definition cs_dir : Path.t := ["/"; "app"; "lang-semantics"; "cs"].

Definition sample_env : Env :=
  {| module_dir := ["/"; "app"];
     cwd := ["/"; "repo"];
     path_exists := λ p, bool_decide (p = cs_dir);
     read_text := λ p,
       if bool_decide (p = cs_dir ++ ["target"]) then OK "dotnet analyzer.dll"
       else Err (OSError "No such file or directory");
     run_process := λ args dir,
       if bool_decide (last args = Some "/repo/good.cs")
       then mkCompleted 0 (String.concat (String "010" "") four_lines)
       else mkCompleted 1 "class - [0-100]";
     decode_utf8 := OK;
     SemanticWeightModel_parse := λ _, OK example_model |}.

Definition empty_world : World :=
  {| SEMANTIC_ANALYZERS := ∅; started := []; printed := [] |}.

Definition cs_analyzer : LangSemanticsObj :=
  mkLangSemantics cs_dir "dotnet analyzer.dll".

Definition good_file : Path.t := ["/"; "repo"; "good.cs"].
Definition bad_file : Path.t := ["/"; "repo"; "bad.cs"].
Definition bin_file : Path.t := ["unsupported.bin"].

(** ** Further definitions for the properties of the code

    Text that the line parser is written for, and measures used to state
    what the builder, the scorer and the batch driver keep. *)

(** The decimal value of a text of digits, most significant first. *)
Fixpoint decimal_acc (ds : string) (acc : Z) : Z :=
  match ds with
  | EmptyString => acc
  | String c ds' => decimal_acc ds' (10 * acc + PyStr.digit_val c)
  end.

Definition decimal_value (ds : string) : Z := decimal_acc ds 0.

(** A non-empty text of digits. *)
Fixpoint all_digits (ds : string) : bool :=
  match ds with
  | EmptyString => true
  | String c ds' => PyStr.is_digit c && all_digits ds'
  end.

Definition is_number (ds : string) : bool :=
  negb (PyStr.is_empty ds) && all_digits ds.

(** Every character of the text is white space for [strip]. *)
Fixpoint all_space (s : string) : bool :=
  match s with
  | EmptyString => true
  | String c s' => PyStr.is_space c && all_space s'
  end.

(** An output line in the form the analyzers print: the kind, the
    separator, the range in brackets and the end of the line. *)
Definition canonical_line (k ds de nl : string) : string :=
  k ++ " - [" ++ ds ++ "-" ++ de ++ "]" ++ nl.

(** The number of triples of a given kind. *)
Definition kind_count (k : string) (elems : list (string * Z * Z)) : Z :=
  Z.of_nat (length (filter (λ x, x.1.1 = k) elems)).

(** The four terms of the weight of a root whose [end] is [end0] and under
    which [classes], [functions] and [members] (fields and properties)
    hang. *)
Definition weight_of_counts (m : SemanticWeightModel)
    (end0 classes functions members : Z) : float :=
  ScoreSpec.sum
    [ (base_length_weight m * ScoreSpec.length_multiplier end0 m)%float;
      (base_class_weight m * ScoreSpec.class_multiplier classes m)%float;
      (base_function_weight m
       * ScoreSpec.function_multiplier functions m)%float;
      (base_property_or_field_weight m
       * ScoreSpec.property_field_multiplier members m)%float ].

(** The kinds the scorer counts. *)
Definition counted_kind (k : string) : bool :=
  bool_decide (k = "class") || bool_decide (k = "function")
  || bool_decide (k = "field") || bool_decide (k = "property").

(** Every reference of the heap names an object of the heap. *)
Definition refs_valid (h : heap) : Prop :=
  ∀ i x, h !! i = Some x →
    (∀ c, c ∈ children x → (c < length h)%nat) ∧
    (∀ p, parent x = Some p → (p < length h)%nat).

(** The world [w] with other printed lines. *)
Definition with_printed (p : list printed_line) (w : World) : World :=
  {| SEMANTIC_ANALYZERS := SEMANTIC_ANALYZERS w; started := started w;
     printed := p |}.

(** A computation that neither reads nor writes the printed lines. *)
Definition silent {A} (f : M A) : Prop :=
  ∀ p w, f (with_printed p w) = ((f w).1, with_printed p (f w).2).

(** The lookup for [file] in the world [w] gets past the two early
    returns: the file has an extension, and the extension is cached or has
    a directory under [lang-semantics]. *)
Definition resolves (env : Env) (w : World) (file : Path.t) : bool :=
  let extension := extension_of (Path.absolute (cwd env) file) in
  negb (PyStr.is_empty extension)
  && (bool_decide (is_Some (SEMANTIC_ANALYZERS w !! extension))
      || path_exists env (Path.joinpath (LANG_SEMANTICS_PATH env) extension)).

(** The files of all groups, in order. *)
Definition all_files (groups : list FileGroup) : list Path.t :=
  concat (map files groups).

(** The lines a verbose run prints for [n] groups. *)
Definition progress_lines (n : nat) : list printed_line :=
  map (λ counter, ProgressLine counter n) (seq 1 n).

(** The run of [sample_env] with an analyzer that prints nothing. *)
Definition silent_env : Env :=
  {| module_dir := module_dir sample_env;
     cwd := cwd sample_env;
     path_exists := path_exists sample_env;
     read_text := read_text sample_env;
     run_process := λ _ _, mkCompleted 0 "";
     decode_utf8 := OK;
     SemanticWeightModel_parse := λ _, OK example_model |}.

(** ** Remote repositories ([repository_hooks.py])

    The connections to GitLab and GitHub are outside the program: what the
    constructors read from them is given by a [Remote], and the calls they
    make and the lines they print are recorded as a list of events. *)

Module RepositoryHooks.

(** [s[n:]] *)
Fixpoint drop_chars (n : nat) (s : string) : string :=
  match n, s with
  | O, _ => s
  | S n', String _ s' => drop_chars n' s'
  | S _, EmptyString => EmptyString
  end.

(** [s[:-n]] for a positive [n] *)
Definition drop_last_chars (n : nat) (s : string) : string :=
  String.substring 0 (String.length s - n) s.

(** [s.startswith(p)] *)
Fixpoint startswith (p s : string) : bool :=
  match p, s with
  | EmptyString, _ => true
  | String a p', String b s' => Ascii.eqb a b && startswith p' s'
  | String _ _, EmptyString => false
  end.

(** [s.endswith(p)] *)
Definition endswith (p s : string) : bool :=
  (String.length p <=? String.length s)%nat
  && String.eqb
       (String.substring (String.length s - String.length p)
          (String.length p) s) p.

(** [sub in s] *)
Fixpoint contains_text (sub s : string) : bool :=
  startswith sub s
  || match s with
     | EmptyString => false
     | String _ s' => contains_text sub s'
     end.

(** Lines 86-89 and 129-132: the project path without one leading slash
    and without one trailing [.git]. *)
Definition normalize_project_path (project_path : string) : string :=
  let project_path :=
    if startswith "/" project_path then drop_chars 1 project_path
    else project_path in
  if endswith ".git" project_path then drop_last_chars 4 project_path
  else project_path.

(** Lines 192-195 of [parse_projects]: the projects named by the lines of
    the projects file. *)
Fixpoint project_lines (lines : list string) : list string :=
  match lines with
  | [] => []
  | line :: rest =>
      if PyStr.is_empty (PyStr.strip line) || startswith "#" line
      then project_lines rest
      else PyStr.strip line :: project_lines rest
  end.

Inductive hook_error : Type :=
  | TypeError
  | AttributeError
  | UnknownHost (host : string)
  | FileNotFound
  | RemoteError (msg : string).

(** What [urllib3.util.parse_url] returns, of which [parse_project] reads
    three attributes, each of which may be [None]. *)
Record Url : Type := mkUrl {
  scheme : option string;
  host : option string;
  path : option string
}.

(** The remote services, as far as the constructors read them: whether a
    connection can be made, and the name of the project at a path. *)
Record Remote : Type := mkRemote {
  gitlab_auth : string → string → option string;
  gitlab_project_name : string → string → string → string + string;
  github_connect : string → option string;
  github_repo_name : string → string → string + string
}.

(** The calls made and the lines printed; a printed line is given without
    the sign [ERROR] it starts with. *)
Inductive event : Type :=
  | GitLabAuth (host token : string)
  | GitLabGet (host project_path : string)
  | GithubConnect (token : string)
  | GithubGet (project_path : string)
  | PrintError (msg : string).

(** The attributes of a [RemoteRepository] once constructed. *)
Record RemoteRepository : Type := mkRepo {
  is_gitlab : bool;
  repo_name : string;
  repo_path : string;
  access_token : string;
  repo_host : string
}.

(** The outcome of a constructor or of [parse_project]: the events in
    order, and the object or the exception. *)
Definition outcome (A : Type) : Type := list event * (hook_error + A).

Section with_remote.

Variable remote : Remote.

(** [GitLabRepository.__init__] *)
Definition GitLabRepository (host0 : string) (project_path : option string)
    (token : string) : outcome RemoteRepository :=
  match gitlab_auth remote host0 token with
  | Some msg =>
      ([GitLabAuth host0 token;
        PrintError ("Could not connect to GitLab instance at " ++ host0
                    ++ ", check your access token.")],
       inl (RemoteError msg))
  | None =>
      match project_path with
      | None => ([GitLabAuth host0 token], inl AttributeError)
      | Some raw =>
          let normalized := normalize_project_path raw in
          match gitlab_project_name remote host0 token normalized with
          | inl msg =>
              ([GitLabAuth host0 token; GitLabGet host0 normalized],
               inl (RemoteError msg))
          | inr name =>
              ([GitLabAuth host0 token; GitLabGet host0 normalized],
               inr {| is_gitlab := true; repo_name := name; repo_path := raw;
                      access_token := token; repo_host := host0 |})
          end
      end
  end.

(** [GithubRepository.__init__] *)
Definition GithubRepository (project_path : option string) (token : string)
    : outcome RemoteRepository :=
  match project_path with
  | None => ([], inl AttributeError)
  | Some raw =>
      let normalized := normalize_project_path raw in
      match github_connect remote token with
      | Some msg =>
          ([GithubConnect token;
            PrintError "Could not connect to GitHub, check your access token."],
           inl (RemoteError msg))
      | None =>
          match github_repo_name remote token normalized with
          | inl msg =>
              ([GithubConnect token; GithubGet normalized],
               inl (RemoteError msg))
          | inr name =>
              ([GithubConnect token; GithubGet normalized],
               inr {| is_gitlab := false; repo_name := name;
                      repo_path := normalized; access_token := token;
                      repo_host := "https://github.com" |})
          end
      end
  end.

(** [parse_project], from the parsed address on. *)
Definition parse_project (uri : Url) (gitlab_access_token : string)
    (github_access_token : string) : outcome RemoteRepository :=
  match host uri with
  | None => ([], inl TypeError)
  | Some h =>
      if contains_text "gitlab" h then
        match scheme uri with
        | None => ([], inl TypeError)
        | Some sch =>
            GitLabRepository (sch ++ "://" ++ h) (path uri) gitlab_access_token
        end
      else if contains_text "github" h then
        GithubRepository (path uri) github_access_token
      else ([], inl (UnknownHost h))
  end.

(** The second loop of [parse_projects]: one repository per project, the
    first exception ending the loop. [parse] stands for
    [urllib3.util.parse_url], which may raise. *)
Fixpoint parse_all (parse : string → hook_error + Url) (projects : list string)
    (gitlab_access_token github_access_token : string)
    : outcome (list RemoteRepository) :=
  match projects with
  | [] => ([], inr [])
  | project :: rest =>
      match parse project with
      | inl e => ([], inl e)
      | inr uri =>
          match parse_project uri gitlab_access_token github_access_token with
          | (evs, inl e) => (evs, inl e)
          | (evs, inr repo) =>
              match parse_all parse rest gitlab_access_token
                      github_access_token with
              | (evs', inl e) => (evs ++ evs', inl e)
              | (evs', inr repos) => (evs ++ evs', inr (repo :: repos))
              end
          end
      end
  end.

(** [parse_projects]: [file_lines] is what [readlines] gives for the
    projects file, or [None] when the file does not exist. *)
Definition parse_projects (parse : string → hook_error + Url)
    (file_lines : option (list string))
    (gitlab_access_token github_access_token : string)
    : outcome (list RemoteRepository) :=
  match file_lines with
  | None => ([], inl FileNotFound)
  | Some lines =>
      parse_all parse (project_lines lines) gitlab_access_token
        github_access_token
  end.

End with_remote.

End RepositoryHooks.

(** ** Further definitions for the loop body and the line parser *)

(** The anchor as the containment test of line 124 reads it, in an
    iteration that starts in the state [st] on a line whose range ends at
    [end0]: the object it is in [st], except that lines 122-123 have by
    then raised the [end] of the root to [end0] where that is larger. *)
Definition anchor_at_test (st : LangSemantics.loop_state) (end0 : Z)
    : LangElement :=
  let a := LangSemantics.objects st !!! LangSemantics.anchor st in
  if decide (LangSemantics.anchor st = LangSemantics.root)
  then LangElement.with_end (Z.max (end_ a) end0) a
  else a.

(** The text [s] without the characters that satisfy [d]. *)
Fixpoint without (d : ascii → bool) (s : string) : string :=
  match s with
  | EmptyString => EmptyString
  | String c s' => if d c then without d s' else String c (without d s')
  end.

(** An opening or closing bracket. *)
Definition is_bracket (c : ascii) : bool :=
  Ascii.eqb c "[" || Ascii.eqb c "]".

(** A run of digits in which a single underscore may stand between two
    digits; [after_digit] tells whether the character before was a
    digit. *)
Fixpoint digit_run (s : string) (after_digit : bool) : bool :=
  match s with
  | EmptyString => after_digit
  | String c s' =>
      if PyStr.is_digit c then digit_run s' true
      else Ascii.eqb c "_" && after_digit && digit_run s' false
  end.

(** An integer literal without minus sign: an optional [+], then a run of
    digits, no more of them than [int] converts. *)
Definition integer_literal (s : string) : bool :=
  (PyStr.digit_count s <=? PyStr.int_max_str_digits)%N
  && match s with
     | EmptyString => false
     | String c s' =>
         if Ascii.eqb c "+" then digit_run s' false else digit_run s false
     end.

(** A field of the range that is an integer: what is left of it without
    its brackets and the white space around it is an integer literal. *)
Definition integer_field (f : string) : bool :=
  integer_literal (PyStr.strip (without is_bracket f)).

(** The fields of the range of a line: the pieces between the minus signs
    that follow the separator; none when the line has no separator. *)
Definition range_fields (line : string) : list string :=
  match PyStr.partition "-" line with
  | (_, Some range) => PyStr.split "-" range
  | (_, None) => []
  end.

(** The line has the separator and, after it, a start and an end that are
    integers. *)
Definition has_integer_range (line : string) : bool :=
  match range_fields line with
  | f0 :: f1 :: _ => integer_field f0 && integer_field f1
  | _ => false
  end.

(** * Properties *)

(** ** Strings *)

Section string_facts.

Import PyStr.

Lemma contains_cons_false c a s :
  contains c (String a s) = false ↔ Ascii.eqb a c = false ∧ contains c s = false.
Proof. simpl. apply orb_false_iff. Qed.

Lemma lstrip_by_contains p c s :
  contains c s = false → contains c (lstrip_by p s) = false.
Proof.
  induction s as [|a s IH]; [done|]. intros H. simpl.
  destruct (p a); [|done].
  apply contains_cons_false in H as [_ H]. by apply IH.
Qed.

Lemma rstrip_by_contains p c s :
  contains c s = false → contains c (rstrip_by p s) = false.
Proof.
  induction s as [|a s IH]; [done|]. intros [Ha Hs]%contains_cons_false. simpl.
  destruct (is_empty (rstrip_by p s) && p a); [done|].
  apply contains_cons_false. auto.
Qed.

Lemma strip_contains c s : contains c s = false → contains c (strip s) = false.
Proof. intros H. by apply rstrip_by_contains, lstrip_by_contains. Qed.

Lemma replace_empty_contains c old s :
  contains c s = false → contains c (replace old "" s) = false.
Proof.
  induction s as [|a s IH]; [done|]. intros [Ha Hs]%contains_cons_false. simpl.
  destruct (Ascii.eqb a old); simpl; [by apply IH|].
  rewrite Ha. by apply IH.
Qed.

Lemma split_pieces sep s : Forall (λ p, contains sep p = false) (split sep s).
Proof.
  induction s as [|a s IH]; simpl.
  - by constructor.
  - destruct (Ascii.eqb a sep) eqn:Ha.
    + by constructor.
    + destruct (split sep s) as [|h t].
      * constructor; [|done]. simpl. by rewrite Ha.
      * inversion IH; subst. constructor; [|done]. simpl. by rewrite Ha.
Qed.

Lemma partition_head sep s : contains sep (partition sep s).1 = false.
Proof.
  induction s as [|a s IH]; [done|]. simpl.
  destruct (Ascii.eqb a sep) eqn:Ha; [done|].
  destruct (partition sep s) as [h t]. simpl in *. by rewrite Ha.
Qed.

Lemma partition_None sep s :
  (partition sep s).2 = None ↔ contains sep s = false.
Proof.
  induction s as [|a s IH]; [done|]. simpl.
  destruct (Ascii.eqb a sep) eqn:Ha; simpl; [done|].
  destruct (partition sep s) as [h t]. simpl in *. done.
Qed.

Lemma digit_val_nonneg c : is_digit c = true → (0 ≤ digit_val c)%Z.
Proof.
  unfold is_digit, digit_val. intros [H _]%andb_true_iff.
  apply N.leb_le in H. lia.
Qed.

Lemma int_digits_nonneg s acc b z :
  (0 ≤ acc)%Z → int_digits s acc b = Some z → (0 ≤ z)%Z.
Proof.
  revert acc b. induction s as [|c s IH]; intros acc b Hacc; simpl.
  - destruct b; congruence.
  - destruct (is_digit c) eqn:Hd.
    + apply IH. pose proof (digit_val_nonneg c Hd). lia.
    + destruct (Ascii.eqb c "_"); [|done]. destruct b; [|done]. by apply IH.
Qed.

(** [int] of a text without a minus sign is not negative. *)
Lemma int_nonneg s z : contains "-" s = false → int s = OK z → (0 ≤ z)%Z.
Proof.
  intros Hs. unfold int.
  apply (lstrip_by_contains is_int_space), (rstrip_by_contains is_int_space)
    in Hs.
  destruct (rstrip_by is_int_space (lstrip_by is_int_space s)) as [|c t] eqn:Ht.
  - done.
  - apply contains_cons_false in Hs as [Hc Hs].
    destruct (Ascii.eqb_spec c "+") as [->|Hp].
    + destruct (digit_count t <=? int_max_str_digits)%N; [|done].
      destruct (int_digits t 0 false) eqn:Hd; [|done].
      intros [= <-]. by eapply int_digits_nonneg.
    + destruct (Ascii.eqb_spec c "-") as [->|Hm]; [done|].
      destruct (digit_count (String c t) <=? int_max_str_digits)%N; [|done].
      destruct (int_digits (String c t) 0 false) eqn:Hd; [|done].
      intros [= <-]. by eapply int_digits_nonneg.
Qed.

Lemma contains_count c s : contains c s = false ↔ count c s = 0%nat.
Proof.
  induction s as [|a s IH]; [done|]. simpl.
  destruct (Ascii.eqb a c); simpl; [done|]. apply IH.
Qed.

Lemma partition_count sep s h t :
  partition sep s = (h, Some t) → count sep s = S (count sep t).
Proof.
  revert h. induction s as [|a s IH]; intros h; [done|]. simpl.
  destruct (Ascii.eqb a sep); [by intros [= _ ->]|].
  destruct (partition sep s) as [h' t'] eqn:Hp. intros [= _ ->].
  by erewrite IH.
Qed.

Lemma split_no_sep sep s : contains sep s = false → split sep s = [s].
Proof.
  induction s as [|a s IH]; [done|]. intros [Ha Hs]%contains_cons_false.
  simpl. by rewrite Ha, IH.
Qed.

Lemma rstrip_by_keeps p s :
  (∀ c, contains c s = true → p c = false) → rstrip_by p s = s.
Proof.
  induction s as [|x s IH]; [done|]. intros Hnone. simpl. rewrite IH.
  - rewrite (Hnone x); [by rewrite andb_false_r|]. simpl. by rewrite Ascii.eqb_refl.
  - intros c Hc. apply Hnone. simpl. rewrite Hc. apply orb_true_r.
Qed.

Lemma lstrip_by_keeps p s :
  (∀ c, contains c s = true → p c = false) → lstrip_by p s = s.
Proof.
  destruct s as [|x s]; [done|]. intros Hnone. simpl.
  rewrite (Hnone x); [done|]. simpl. by rewrite Ascii.eqb_refl.
Qed.

Lemma is_digit_not_space c : is_digit c = true → is_space c = false.
Proof.
  unfold is_digit, is_space. intros [H1 H2]%andb_true_iff.
  apply N.leb_le in H1, H2.
  repeat (apply orb_false_iff; split);
    try apply andb_false_iff; rewrite ?N.leb_gt, ?N.eqb_neq; lia.
Qed.

Lemma int_space_is_space c : is_int_space c = true → is_space c = true.
Proof.
  unfold is_int_space, is_space.
  rewrite !orb_true_iff, !andb_true_iff, !N.leb_le, !N.eqb_eq. lia.
Qed.

Lemma space_is_no_bracket c : is_space c = true → is_bracket c = false.
Proof.
  intros Hc. unfold is_bracket.
  destruct (Ascii.eqb_spec c "[") as [->|_]; [done|].
  by destruct (Ascii.eqb_spec c "]") as [->|_].
Qed.

(** Stripping with a larger set of characters absorbs stripping with a
    smaller one. *)
Lemma lstrip_by_absorb (q p : ascii → bool) s :
  (∀ c, q c = true → p c = true) →
  lstrip_by p (lstrip_by q s) = lstrip_by p s.
Proof.
  intros Hq. induction s as [|c s IH]; [done|]. simpl.
  destruct (q c) eqn:Hc; [|done]. by rewrite (Hq c Hc).
Qed.

Lemma rstrip_by_absorb (q p : ascii → bool) s :
  (∀ c, q c = true → p c = true) →
  rstrip_by p (rstrip_by q s) = rstrip_by p s.
Proof.
  intros Hq. induction s as [|c s IH]; [done|]. simpl.
  destruct (is_empty (rstrip_by q s) && q c) eqn:Hc.
  - apply andb_true_iff in Hc as [He Hc]. rewrite <- IH, (Hq c Hc).
    by destruct (rstrip_by q s).
  - simpl. by rewrite IH.
Qed.

(** The two ends are stripped independently. *)
Lemma strip_by_comm p s :
  rstrip_by p (lstrip_by p s) = lstrip_by p (rstrip_by p s).
Proof.
  induction s as [|c s IH]; [done|]. simpl.
  destruct (p c) eqn:Hc.
  - rewrite IH. destruct (rstrip_by p s) as [|a r]; simpl; [done|].
    by rewrite Hc.
  - rewrite andb_false_r. simpl. by rewrite Hc, andb_false_r.
Qed.

Lemma without_replace_brackets s :
  replace "]" "" (replace "[" "" s) = without is_bracket s.
Proof.
  induction s as [|c s IH]; [done|]. simpl. unfold is_bracket.
  destruct (Ascii.eqb c "["); [exact IH|]. simpl.
  destruct (Ascii.eqb c "]"); [exact IH|]. by rewrite IH.
Qed.

(** Deleting characters from a text already stripped strips as much as
    deleting them from the text itself. *)
Lemma lstrip_without (p d : ascii → bool) s :
  (∀ c, p c = true → d c = false) →
  lstrip_by p (without d (lstrip_by p s)) = lstrip_by p (without d s).
Proof.
  intros Hp. induction s as [|c s IH]; [done|]. simpl.
  destruct (p c) eqn:Hc; [|done]. rewrite (Hp c Hc). simpl. by rewrite Hc.
Qed.

Lemma rstrip_without (p d : ascii → bool) s :
  (∀ c, p c = true → d c = false) →
  rstrip_by p (without d (rstrip_by p s)) = rstrip_by p (without d s).
Proof.
  intros Hp. induction s as [|c s IH]; [done|]. simpl.
  destruct (is_empty (rstrip_by p s) && p c) eqn:Hc.
  - apply andb_true_iff in Hc as [He Hc]. rewrite (Hp c Hc). simpl.
    rewrite <- IH, Hc. by destruct (rstrip_by p s).
  - simpl. destruct (d c); [exact IH|]. simpl. by rewrite IH.
Qed.

Lemma strip_without_lstrip s :
  strip (without is_bracket (lstrip s)) = strip (without is_bracket s).
Proof.
  unfold strip, lstrip, rstrip.
  by rewrite lstrip_without by apply space_is_no_bracket.
Qed.

Lemma strip_without_rstrip s :
  strip (without is_bracket (rstrip s)) = strip (without is_bracket s).
Proof.
  unfold strip, lstrip, rstrip.
  by rewrite !strip_by_comm, rstrip_without by apply space_is_no_bracket.
Qed.

Lemma split_not_nil sep s : split sep s ≠ [].
Proof.
  destruct s as [|c s]; [done|]. simpl.
  destruct (Ascii.eqb c sep); [done|]. by destruct (split sep s).
Qed.

Lemma split_single sep s f : split sep s = [f] → f = s.
Proof.
  revert f. induction s as [|c s IH]; intros f; simpl; [by intros [= <-]|].
  pose proof (split_not_nil sep s) as Hne.
  destruct (Ascii.eqb c sep); [by intros [= _ ?]|].
  destruct (split sep s) as [|h t]; [done|].
  intros [= <- ->]. f_equal. by apply IH.
Qed.

(** Deleting characters other than the separator commutes with
    splitting. *)
Lemma split_without d sep s :
  d sep = false →
  split sep (without d s) = map (without d) (split sep s).
Proof.
  intros Hd. induction s as [|c s IH]; [done|].
  pose proof (split_not_nil sep s) as Hne. simpl.
  destruct (Ascii.eqb_spec c sep) as [->|Hc].
  - rewrite Hd. simpl. rewrite Ascii.eqb_refl. by rewrite IH.
  - destruct (d c) eqn:Hdc.
    + rewrite IH. destruct (split sep s) as [|h t]; [done|].
      simpl. by rewrite Hdc.
    + simpl. rewrite (proj2 (Ascii.eqb_neq c sep) Hc), IH.
      destruct (split sep s) as [|h t]; [done|].
      simpl. by rewrite Hdc.
Qed.

(** Stripping a text on the left strips its first piece. *)
Lemma split_lstrip_by p sep s :
  p sep = false →
  split sep (lstrip_by p s)
  = match split sep s with
    | f :: fs => lstrip_by p f :: fs
    | [] => []
    end.
Proof.
  intros Hp. induction s as [|c s IH]; [done|].
  pose proof (split_not_nil sep s) as Hne. simpl.
  destruct (p c) eqn:Hc.
  - assert (Ascii.eqb c sep = false) as ->
      by (destruct (Ascii.eqb_spec c sep) as [->|]; congruence).
    rewrite IH. destruct (split sep s) as [|f fs]; [done|].
    simpl. by rewrite Hc.
  - simpl. destruct (Ascii.eqb c sep); [done|].
    destruct (split sep s) as [|f fs]; [done|]. simpl. by rewrite Hc.
Qed.

(** Stripping a text on the right strips its last piece. *)
Lemma split_rstrip_by p sep s :
  p sep = false →
  ∃ init f, split sep s = init ++ [f]
            ∧ split sep (rstrip_by p s) = init ++ [rstrip_by p f].
Proof.
  intros Hp. induction s as [|c s (init & f & Hs & Hr)].
  { by exists [], "". }
  simpl. destruct (is_empty (rstrip_by p s) && p c) eqn:Hc.
  - apply andb_true_iff in Hc as [He Hc].
    assert (Ascii.eqb c sep = false) as ->
      by (destruct (Ascii.eqb_spec c sep) as [->|]; congruence).
    destruct (rstrip_by p s) eqn:Hrs; [|done]. simpl in Hr.
    destruct init as [|i0 init]; [|by destruct init].
    injection Hr as Hf. rewrite Hs. exists [], (String c f). split; [done|].
    simpl. by rewrite <- Hf, Hc.
  - simpl. destruct (Ascii.eqb c sep) eqn:Hsep.
    + exists ("" :: init), f. by rewrite Hs, Hr.
    + rewrite Hr, Hs. destruct init as [|i0 init]; simpl.
      * exists [], (String c f). split; [done|]. simpl.
        by rewrite (split_single _ _ _ Hs), Hc.
      * by exists (String c i0 :: init), f.
Qed.

(** Stripping a text changes its pieces only by white space at the two
    ends, which a function blind to that white space does not see. *)
Lemma map_split_strip {A} (N : string → A) sep s :
  is_space sep = false →
  (∀ f, N (lstrip f) = N f) → (∀ f, N (rstrip f) = N f) →
  map N (split sep (strip s)) = map N (split sep s).
Proof.
  intros Hsep Hl Hr. unfold strip.
  destruct (split_rstrip_by is_space sep (lstrip s) Hsep)
    as (init & f & Hs & Hrs).
  unfold rstrip at 1. rewrite Hrs.
  trans (map N (init ++ [f])).
  { rewrite !map_app. simpl. f_equal. f_equal. apply Hr. }
  rewrite <- Hs. unfold lstrip. rewrite split_lstrip_by by done.
  destruct (split sep s) as [|g gs]; [done|]. simpl. f_equal. apply Hl.
Qed.

Lemma int_digits_chars s acc b z :
  int_digits s acc b = Some z →
  digit_run s b = true ∧ ∀ c, contains c s = true → is_space c = false.
Proof.
  revert acc b. induction s as [|a s IH]; intros acc b; simpl.
  - by destruct b.
  - destruct (is_digit a) eqn:Ha.
    + intros [Hr Hc]%IH. split; [done|].
      intros c [->%Ascii.eqb_eq|Hin]%orb_true_iff; [|by apply Hc].
      by apply is_digit_not_space.
    + destruct (Ascii.eqb_spec a "_") as [->|_]; [|done].
      destruct b; [|done]. intros [Hr Hc]%IH. split; [done|].
      intros c [<-%Ascii.eqb_eq|Hin]%orb_true_iff; [done|by apply Hc].
Qed.

(** What [int] reads in a text without minus sign is an integer literal
    with white space around it. *)
Lemma int_literal s z :
  contains "-" s = false → int s = OK z → integer_literal (strip s) = true.
Proof.
  intros Hs. unfold int.
  pose proof Hs as Hcore.
  apply (lstrip_by_contains is_int_space), (rstrip_by_contains is_int_space)
    in Hcore.
  set (y := lstrip_by is_int_space s) in *.
  destruct (rstrip_by is_int_space y) as [|c t] eqn:Hy; [done|].
  intros Hint.
  assert (integer_literal (String c t) = true
          ∧ ∀ a, contains a (String c t) = true → is_space a = false)
    as [Hlit Hns].
  { apply contains_cons_false in Hcore as [Hc _]. unfold integer_literal.
    destruct (Ascii.eqb_spec c "+") as [->|Hp].
    - change (digit_count (String "+" t)) with (digit_count t).
      destruct (digit_count t <=? int_max_str_digits)%N; [|done].
      destruct (int_digits t 0 false) eqn:Hd; [|done].
      apply int_digits_chars in Hd as [Hr Hch]. split; [done|].
      intros a [<-%Ascii.eqb_eq|Hin]%orb_true_iff; [done|by apply Hch].
    - destruct (Ascii.eqb_spec c "-") as [->|Hm]; [done|].
      destruct (digit_count (String c t) <=? int_max_str_digits)%N; [|done].
      destruct (int_digits (String c t) 0 false) eqn:Hd; [|done].
      by apply int_digits_chars in Hd as [Hr Hch]. }
  assert (strip s = String c t) as ->; [|done].
  unfold strip, lstrip, rstrip.
  rewrite <- (lstrip_by_absorb is_int_space is_space s)
    by apply int_space_is_space.
  fold y. destruct y as [|c' y']; [done|].
  assert (c' = c) as ->.
  { simpl in Hy. by destruct (_ && _); [|injection Hy]. }
  assert (lstrip_by is_space (String c y') = String c y') as ->.
  { simpl. rewrite (Hns c); [done|]. simpl. by rewrite Ascii.eqb_refl. }
  rewrite <- (rstrip_by_absorb is_int_space is_space)
    by apply int_space_is_space.
  rewrite Hy. by apply rstrip_by_keeps.
Qed.

End string_facts.

(** ** The structure builder *)

Section structure_facts.

Import LangSemantics.

(** The numbers of an accepted line are not negative: a minus sign would
    have been taken for a separator. *)
Lemma parse_line_nonneg line k s e :
  parse_line line = OK (k, s, e) → (0 ≤ s)%Z ∧ (0 ≤ e)%Z.
Proof.
  unfold parse_line.
  destruct (PyStr.index _ 0) as [s0|]; [simpl|done].
  destruct (PyStr.index _ 1) as [s1|]; [simpl|done].
  pose proof (split_pieces "-"
    (PyStr.replace "]" "" (PyStr.replace "[" "" (PyStr.strip s1)))) as Hp.
  revert Hp.
  generalize (PyStr.split "-"
    (PyStr.replace "]" "" (PyStr.replace "[" "" (PyStr.strip s1)))).
  intros ranges Hp. unfold PyStr.index.
  destruct (ranges !! 0%nat) as [r0|] eqn:H0; [simpl|done].
  destruct (PyStr.int r0) as [a|] eqn:Ha; [simpl|done].
  destruct (ranges !! 1%nat) as [r1|] eqn:H1; [simpl|done].
  destruct (PyStr.int r1) as [b|] eqn:Hb; [simpl|done].
  intros [= <- <- <-].
  rewrite Forall_lookup in Hp. split.
  - eapply int_nonneg; [exact (Hp _ _ H0)|done].
  - eapply int_nonneg; [exact (Hp _ _ H1)|done].
Qed.

Lemma max_end_snoc elems k s e :
  max_end (elems ++ [(k, s, e)]) = Z.max (max_end elems) e.
Proof. unfold max_end. by rewrite fold_left_app. Qed.

Lemma max_end_ge_0 elems : (0 ≤ max_end elems)%Z.
Proof.
  induction elems as [|[[k s] e] elems IH] using rev_ind; [done|].
  rewrite max_end_snoc. lia.
Qed.

Lemma flat_heap_length elems : length (flat_heap elems) = S (length elems).
Proof. unfold flat_heap. simpl. by rewrite length_map. Qed.

(** One iteration from a flat heap whose anchor is the root, for an element
    that does not start below 0: the containment test succeeds on the
    root, whose [end] has just been raised, and the heap stays flat. *)
Lemma attach_flat elems k s e :
  (0 ≤ s)%Z →
  attach (mkLoop (flat_heap elems) root) k s e
  = mkLoop (flat_heap (elems ++ [(k, s, e)])) root.
Proof.
  intros Hs. unfold attach, alloc. cbn [objects anchor].
  rewrite flat_heap_length.
  unfold set_start, set_end, children_append, flat_heap.
  cbn [alter list_alter app].
  rewrite !(alter_app_r_alt _ _ _ (length elems)) by (by rewrite length_map).
  rewrite length_map, Nat.sub_diag. cbn [alter list_alter].
  unfold root. cbn [lookup_total list_lookup_total alter list_alter].
  unfold LangElement.in_range, flat_root. cbn [start end_].
  destruct (max_end elems <? e)%Z eqn:Hlt;
    cbn [alter list_alter lookup_total list_lookup_total
         LangElement.with_end start end_ kind parent children].
  - apply Z.ltb_lt in Hlt.
    replace ((0 <=? s)%Z && (e >=? e)%Z) with true
      by (symmetry; apply andb_true_iff; split; lia).
    cbn [objects anchor alter list_alter LangElement.with_child
         kind parent children start end_].
    rewrite max_end_snoc, map_app, length_app, Nat.add_1_r, seq_S.
    unfold LangElement.with_child, LangElement.with_end,
      LangElement.with_start, LangElement.__init__.
    cbn [map flat_element kind parent children start end_].
    do 3 f_equal. lia.
  - apply Z.ltb_ge in Hlt.
    replace ((0 <=? s)%Z && (max_end elems >=? e)%Z) with true
      by (symmetry; apply andb_true_iff; split; lia).
    cbn [objects anchor alter list_alter LangElement.with_child
         kind parent children start end_].
    rewrite max_end_snoc, map_app, length_app, Nat.add_1_r, seq_S.
    unfold LangElement.with_child, LangElement.with_end,
      LangElement.with_start, LangElement.__init__.
    cbn [map flat_element kind parent children start end_].
    do 3 f_equal. lia.
Qed.

Lemma mapM_result_Forall2 {A B} (f : A → result B) l ys :
  mapM f l = OK ys ↔ Forall2 (λ x y, f x = OK y) l ys.
Proof.
  revert ys. induction l as [|x l IH]; intros ys; simpl.
  - split; [intros [= <-]; constructor|by inversion 1].
  - destruct (f x) as [y|e] eqn:Hx; simpl.
    + destruct (mapM f l) as [k|e] eqn:Hl; simpl.
      * split.
        -- intros [= <-]. constructor; [done|by apply IH].
        -- inversion 1 as [|? y' ? k' Hy Hk]; subst.
           apply IH in Hk. rewrite Hx in Hy. by simplify_eq.
      * split; [done|]. inversion 1 as [|? y' ? k' Hy Hk]; subst.
        apply IH in Hk. rewrite Hx in Hy. by simplify_eq.
    + split; [done|]. inversion 1; congruence.
Qed.

Lemma mapM_result_app_OK {A B} (f : A → result B) l1 l2 ys :
  mapM f (l1 ++ l2) = OK ys →
  ∃ ys1 ys2, ys = ys1 ++ ys2 ∧ mapM f l1 = OK ys1 ∧ mapM f l2 = OK ys2.
Proof.
  intros (ys1 & ys2 & H1 & H2 & ->)%mapM_result_Forall2%Forall2_app_inv_l.
  exists ys1, ys2. by rewrite !mapM_result_Forall2.
Qed.

(** The loop from a flat heap, on lines whose elements do not start below
    0: the anchor stays on the root and the heap stays flat. *)
Lemma loop_flat lines : ∀ elems0,
  (∀ l k s e, l ∈ lines → parse_line l = OK (k, s, e) → (0 ≤ s)%Z) →
  loop (mkLoop (flat_heap elems0) root) lines
  = (elems ← mapM parse_line lines;
     mret (mkLoop (flat_heap (elems0 ++ elems)) root)).
Proof.
  induction lines as [|line lines IH]; intros elems0 Hstart; simpl.
  - by rewrite app_nil_r.
  - unfold loop_body.
    destruct (parse_line line) as [[[k s] e]|err] eqn:Hline; simpl; [|done].
    rewrite attach_flat by (eapply Hstart; [left|done]).
    rewrite IH by (intros; eapply Hstart; [by right|done]).
    destruct (mapM parse_line lines) as [elems|err]; simpl; [|done].
    by rewrite <- app_assoc.
Qed.

Lemma loop_init_flat : loop_init = mkLoop (flat_heap []) root.
Proof. reflexivity. Qed.

(** The builder in closed form: whatever the lines, the tree is flat. *)
Lemma parse_structure_flat lines :
  _parse_structure lines = flat_heap <$> mapM parse_line lines.
Proof.
  unfold _parse_structure. rewrite loop_init_flat, loop_flat.
  - by destruct (mapM parse_line lines).
  - intros l k s e _ Hl. by apply parse_line_nonneg in Hl as [? _].
Qed.

Lemma flat_heap_lookup_root elems : flat_heap elems !! root = Some (flat_root elems).
Proof. done. Qed.

Lemma flat_heap_lookup_S elems i x :
  flat_heap elems !! S i = Some x ↔
  ∃ el, elems !! i = Some el ∧ x = flat_element el.
Proof.
  unfold flat_heap. simpl. rewrite list_lookup_fmap.
  destruct (elems !! i) as [el|]; simpl; split.
  - intros [= <-]. by exists el.
  - by intros (el' & [= <-] & ->).
  - done.
  - by intros (? & ? & _).
Qed.

Lemma max_end_upper elems k s e : (k, s, e) ∈ elems → (e ≤ max_end elems)%Z.
Proof.
  induction elems as [|[[k' s'] e'] elems IH] using rev_ind.
  - by intros ?%elem_of_nil.
  - rewrite max_end_snoc, elem_of_app, list_elem_of_singleton.
    intros [Hin|[= -> -> ->]]; [apply IH in Hin|]; lia.
Qed.

Lemma max_end_attained elems :
  elems ≠ [] → Forall (λ x, 0 ≤ x.2)%Z elems →
  ∃ x, x ∈ elems ∧ x.2 = max_end elems.
Proof.
  induction elems as [|[[k s] e] elems IH] using rev_ind; [done|].
  intros _ Hall. apply Forall_app in Hall as [Hall He].
  rewrite Forall_singleton in He. simpl in He. rewrite max_end_snoc.
  destruct (Z.max_spec (max_end elems) e) as [[_ ->]|[Hle ->]].
  - exists (k, s, e). split; [|done]. apply elem_of_app. right. by left.
  - destruct elems as [|x0 elems0].
    + exists (k, s, e). split; [by left|].
      unfold max_end in *. simpl in *. lia.
    + destruct IH as (x & Hx & Hmax); [done|done|].
      exists x. split; [|done]. apply elem_of_app. by left.
Qed.

End structure_facts.

Section structure_claims.

Import LangSemantics.

Lemma parse_structure_elements lines h :
  _parse_structure lines = OK h →
  ∃ elems, h = flat_heap elems ∧
           Forall2 (λ line x, parse_line line = OK x) lines elems.
Proof.
  rewrite parse_structure_flat.
  destruct (mapM parse_line lines) as [elems|] eqn:Hm; [|done].
  intros [= <-]. exists elems. split; [done|].
  by apply mapM_result_Forall2.
Qed.

(** C1 (the code departs from it). On the four lines of the end-to-end
    scenario the code returns a root with [end] 120, but all four elements
    are children of the root: the element class[0-100] has no children,
    the two functions are not under it, and the anchor is still the root
    after the second class line. *)
Theorem four_lines_all_under_root :
  _parse_structure four_lines
  = OK [ mkLangElement "root" None [1; 2; 3; 4]%nat 0 120;
         mkLangElement "class" (Some root) [] 0 100;
         mkLangElement "function" (Some root) [] 10 20;
         mkLangElement "function" (Some root) [] 30 40;
         mkLangElement "class" (Some root) [] 110 120 ]
  ∧ anchor <$> loop loop_init four_lines = OK root.
Proof. split; reflexivity. Qed.

(** C2. When no parsed element starts below 0, the anchor is the root
    after every iteration, every element is appended to the children of
    the root, in order, with the root as its parent, and no element has
    children of its own. *)
Theorem parse_attaches_all_to_root lines h :
  (∀ line k s e,
     line ∈ lines → parse_line line = OK (k, s, e) → (0 ≤ s)%Z) →
  _parse_structure lines = OK h →
  (∀ n, ∃ st, loop loop_init (take n lines) = OK st ∧ anchor st = root) ∧
  length h = S (length lines) ∧
  (∃ r, h !! root = Some r ∧ children r = seq 1 (length lines)) ∧
  (∀ i x, h !! S i = Some x → children x = [] ∧ parent x = Some root).
Proof.
  intros Hstart. unfold _parse_structure.
  rewrite loop_init_flat, loop_flat by done.
  destruct (mapM parse_line lines) as [elems|] eqn:Hm; [|done].
  intros [= <-]. cbn [objects app].
  pose proof Hm as Hlen%mapM_result_Forall2%Forall2_length.
  split; [|split; [|split]].
  - intros n. rewrite <- (take_drop n lines) in Hm.
    apply mapM_result_app_OK in Hm as (ys1 & ys2 & -> & H1 & H2).
    rewrite loop_flat, H1.
    + by eexists.
    + intros line k s e Hin. apply Hstart. by eapply subseteq_take.
  - by rewrite flat_heap_length, Hlen.
  - exists (flat_root elems). split; [done|]. simpl. by rewrite Hlen.
  - intros i x (el & _ & ->)%flat_heap_lookup_S. by destruct el as [[? ?] ?].
Qed.

Lemma parse_attaches_all_to_root_witness :
  ∃ h, _parse_structure four_lines = OK h ∧
    (∀ n, ∃ st, loop loop_init (take n four_lines) = OK st ∧ anchor st = root) ∧
    length h = 5%nat ∧
    (∃ r, h !! root = Some r ∧ children r = [1; 2; 3; 4]%nat) ∧
    (∀ i x, h !! S i = Some x → children x = [] ∧ parent x = Some root).
Proof.
  eexists. split; [reflexivity|].
  apply (parse_attaches_all_to_root four_lines).
  - intros line k s e Hin Hline.
    repeat (apply elem_of_cons in Hin as [->|Hin];
            [vm_compute in Hline; injection Hline as <- <- <-; lia|]).
    by apply elem_of_nil in Hin.
  - reflexivity.
Defined.

(** C4. For a non-empty input that the builder accepts, the [end] of the
    root is the greatest [end] among the parsed elements: one of them
    attains it and none exceeds it. The parsed elements are the objects at
    the addresses 1, 2, ..., one per line. *)
Theorem root_end_is_max_end lines h :
  lines ≠ [] →
  _parse_structure lines = OK h →
  length h = S (length lines) ∧
  (∀ i x, h !! S i = Some x →
     ∃ line k s, lines !! i = Some line ∧ parse_line line = OK (k, s, end_ x)) ∧
  ∃ r, h !! root = Some r ∧
    (∃ i x, h !! S i = Some x ∧ end_ x = end_ r) ∧
    (∀ i x, h !! S i = Some x → (end_ x ≤ end_ r)%Z).
Proof.
  intros Hne (elems & -> & Hall)%parse_structure_elements.
  split; [|split].
  - rewrite flat_heap_length. by rewrite (Forall2_length _ _ _ Hall).
  - intros i x ([[k s] e] & Hi & ->)%flat_heap_lookup_S.
    destruct (Forall2_lookup_r _ _ _ _ _ Hall Hi) as (line & Hline & Hp).
    by exists line, k, s.
  - exists (flat_root elems). split; [done|]. split.
    + destruct (max_end_attained elems) as ([[k s] e] & Hin & Hmax).
      * intros ->. apply Forall2_nil_inv_r in Hall. done.
      * apply Forall_forall. intros [[k s] e] Hin.
        apply list_elem_of_lookup in Hin as [i Hi].
        destruct (Forall2_lookup_r _ _ _ _ _ Hall Hi) as (line & _ & Hp).
        by apply parse_line_nonneg in Hp as [_ ?].
      * apply list_elem_of_lookup in Hin as [i Hi].
        exists i, (flat_element (k, s, e)). split; [|done].
        apply flat_heap_lookup_S. by eexists.
    + intros i x ([[k s] e] & Hi & ->)%flat_heap_lookup_S. simpl.
      eapply max_end_upper, list_elem_of_lookup_2, Hi.
Qed.

Lemma root_end_is_max_end_witness :
  ∃ h, _parse_structure four_lines = OK h ∧
    ∃ r, h !! root = Some r ∧
      (∃ i x, h !! S i = Some x ∧ end_ x = end_ r) ∧
      (∀ i x, h !! S i = Some x → (end_ x ≤ end_ r)%Z).
Proof.
  eexists. split; [reflexivity|].
  apply (root_end_is_max_end four_lines); [discriminate|reflexivity].
Defined.

Lemma alter_parent (f : LangElement → LangElement) i j (h : heap) :
  (∀ x, parent (f x) = parent x) →
  parent <$> alter f i h !! j = parent <$> h !! j.
Proof.
  intros Hf. destruct (decide (i = j)) as [->|Hne].
  - rewrite list_lookup_alter_eq. destruct (h !! j); simpl; by rewrite ?Hf.
  - by rewrite list_lookup_alter_ne.
Qed.

(** Whatever the state of the loop, the element an iteration creates is
    stored at the next free address and its [parent] is the anchor of
    that moment. *)
Lemma attach_parent st k s e :
  parent <$> objects (attach st k s e) !! length (objects st)
  = Some (Some (anchor st)).
Proof.
  unfold attach, alloc, set_start, set_end, children_append.
  repeat match goal with
  | |- context [if ?b then _ else _] => destruct b
  end; cbn [objects]; rewrite !alter_parent by done;
  by rewrite lookup_app_r, Nat.sub_diag by done.
Qed.

Lemma flat_child_of elems i c :
  child_of (flat_heap elems) i c ↔ c = root ∧ (1 ≤ i ≤ length elems)%nat.
Proof.
  unfold child_of. destruct c as [|c].
  - rewrite flat_heap_lookup_root. split.
    + intros (x & [= <-] & Hin). simpl in Hin.
      apply elem_of_seq in Hin. split; [done|lia].
    + intros [_ Hi]. eexists. split; [done|]. simpl.
      apply elem_of_seq. lia.
  - split; [|by intros [? _]].
    intros (x & (el & _ & ->)%flat_heap_lookup_S & Hin).
    destruct el as [[? ?] ?]. simpl in Hin. by apply elem_of_nil in Hin.
Qed.

Lemma parse_structure_parents lines h i x :
  _parse_structure lines = OK h → h !! i = Some x → i ≠ root →
  parent x = Some root ∧ child_of h i root ∧ ∀ c, child_of h i c → c = root.
Proof.
  intros (elems & -> & _)%parse_structure_elements Hi Hne.
  destruct i as [|i]; [done|].
  pose proof (lookup_lt_Some _ _ _ Hi) as Hlt. rewrite flat_heap_length in Hlt.
  apply flat_heap_lookup_S in Hi as ([[k s] e] & _ & ->).
  split; [done|]. split.
  - apply flat_child_of. split; [done|lia].
  - by intros c [? _]%flat_child_of.
Qed.

(** C8 (as stated, refuted). The line ["class - [100-50]"] is accepted and
    gives an element whose [start] lies above its [end]. *)
Lemma element_with_start_above_end :
  ∃ h x, _parse_structure ["class - [100-50]"] = OK h ∧ x ∈ h ∧
         ¬ (start x ≤ end_ x)%Z.
Proof.
  eexists _, (mkLangElement "class" (Some root) [] 100 50).
  split; [reflexivity|]. split; [|simpl; lia].
  apply elem_of_cons. right. by left.
Qed.

(** C8 (amended). The synthetic root always satisfies [start <= end]:
    its [start] is 0 and its [end] is never negative. A parsed element
    carries the two numbers of its line unchanged, neither of them
    negative, so it satisfies [start <= end] exactly when the line gives
    them in that order. *)
Theorem element_ranges_as_reported lines h :
  _parse_structure lines = OK h →
  (∃ r, h !! root = Some r ∧ start r = 0%Z ∧ (start r ≤ end_ r)%Z) ∧
  (∀ i x, h !! S i = Some x →
     ∃ line k s e,
       lines !! i = Some line ∧ parse_line line = OK (k, s, e) ∧
       start x = s ∧ end_ x = e ∧ (0 ≤ s)%Z ∧ (0 ≤ e)%Z ∧
       ((start x ≤ end_ x)%Z ↔ (s ≤ e)%Z)).
Proof.
  intros (elems & -> & Hall)%parse_structure_elements. split.
  - exists (flat_root elems). split; [done|]. split; [done|].
    simpl. apply max_end_ge_0.
  - intros i x ([[k s] e] & Hi & ->)%flat_heap_lookup_S.
    destruct (Forall2_lookup_r _ _ _ _ _ Hall Hi) as (line & Hline & Hp).
    destruct (parse_line_nonneg _ _ _ _ Hp). by exists line, k, s, e.
Qed.

Lemma element_ranges_as_reported_witness :
  ∃ h, _parse_structure ["class - [0-100]"; "function - [20-10]"] = OK h ∧
    (∃ r, h !! root = Some r ∧ start r = 0%Z ∧ (start r ≤ end_ r)%Z) ∧
    (∀ i x, h !! S i = Some x →
       ∃ line k s e,
         ["class - [0-100]"; "function - [20-10]"] !! i = Some line ∧
         parse_line line = OK (k, s, e) ∧
         start x = s ∧ end_ x = e ∧ (0 ≤ s)%Z ∧ (0 ≤ e)%Z ∧
         ((start x ≤ end_ x)%Z ↔ (s ≤ e)%Z)).
Proof.
  eexists. split; [reflexivity|].
  apply (element_ranges_as_reported ["class - [0-100]"; "function - [20-10]"]).
  reflexivity.
Defined.

(** C9 (as stated, refuted). No input gives a tree in which an element
    lies in the [children] of a node other than the one its [parent]
    names. *)
Lemma parent_never_differs_from_container :
  ¬ ∃ lines h i x c,
      _parse_structure lines = OK h ∧ h !! i = Some x ∧
      child_of h i c ∧ parent x ≠ Some c.
Proof.
  intros (lines & h & i & x & c & Hp & Hi & Hc & Hne).
  destruct (decide (i = root)) as [->|Hi0].
  - apply parse_structure_elements in Hp as (elems & -> & _).
    apply flat_child_of in Hc as [_ Hc]. unfold root in Hc. lia.
  - destruct (parse_structure_parents _ _ _ _ Hp Hi Hi0) as (Hpar & _ & Hu).
    apply Hu in Hc as ->. done.
Qed.

Lemma child_of_append (h : heap) c new :
  (c < length h)%nat → child_of (children_append c new h) new c.
Proof.
  intros Hc. destruct (lookup_lt_is_Some_2 h c Hc) as [y Hy].
  exists (LangElement.with_child new y). split.
  - unfold children_append. by rewrite list_lookup_alter_eq, Hy.
  - simpl. apply elem_of_app. right. by left.
Qed.

(** The heap and the object on which the containment test of line 124
    runs: the new element stands at the next free address with the range
    of its line, and the [end] of the root has been raised. *)
Lemma attach_unfold st k s e :
  (anchor st < length (objects st))%nat →
  let new := length (objects st) in
  let h1 := objects st ++ [mkLangElement k (Some (anchor st)) [] s e] in
  let h2 :=
    if (end_ (objects st !!! root) <? e)%Z then set_end root e h1 else h1 in
  attach st k s e
  = if LangElement.in_range (h2 !!! anchor st) s e
    then mkLoop (children_append (anchor st) new h2) (anchor st)
    else mkLoop (children_append root new h2)
           (if String.eqb k "class" then new else anchor st).
Proof.
  intros Hwf new h1 h2. unfold attach, alloc. fold new.
  assert (set_end new e
            (set_start new s
               (objects st ++ [LangElement.__init__ k (Some (anchor st)) []]))
          = h1) as ->.
  { unfold set_end, set_start, new.
    rewrite !(alter_app_r_alt _ _ _ (length (objects st))) by done.
    by rewrite Nat.sub_diag. }
  assert (h1 !!! root = objects st !!! root) as ->.
  { apply lookup_total_app_l. unfold root. lia. }
  done.
Qed.

Lemma with_end_same (a : LangElement) : LangElement.with_end (end_ a) a = a.
Proof. by destruct a. Qed.

Lemma attach_test_object st k s e :
  (anchor st < length (objects st))%nat →
  let h1 := objects st ++ [mkLangElement k (Some (anchor st)) [] s e] in
  let h2 :=
    if (end_ (objects st !!! root) <? e)%Z then set_end root e h1 else h1 in
  h2 !!! anchor st = anchor_at_test st e.
Proof.
  intros Hwf h1 h2. unfold anchor_at_test.
  assert (h1 !!! anchor st = objects st !!! anchor st) as Ha
    by by apply lookup_total_app_l.
  subst h2. destruct (decide (anchor st = root)) as [Hr|Hr].
  - rewrite Hr in *. destruct (Z.ltb_spec (end_ (objects st !!! root)) e).
    + unfold set_end. rewrite list_lookup_total_alter_eq.
      * rewrite Z.max_r by lia. f_equal. exact Ha.
      * unfold h1. rewrite length_app. lia.
    + by rewrite Ha, Z.max_l, with_end_same by lia.
  - destruct (_ <? _)%Z; [|done].
    unfold set_end. by rewrite list_lookup_total_alter_ne.
Qed.

(** Before the new element is appended to a list of children, no object
    of the heap names it as a child, and the references of the heap are
    those of the state the iteration started in. *)
Lemma attach_test_heap st k s e c x :
  refs_valid (objects st) →
  let new := length (objects st) in
  let h1 := objects st ++ [mkLangElement k (Some (anchor st)) [] s e] in
  let h2 :=
    if (end_ (objects st !!! root) <? e)%Z then set_end root e h1 else h1 in
  h2 !! c = Some x →
  (∀ i, i ∈ children x → (i < new)%nat) ∧
  (∀ p, parent x = Some p → (p < new)%nat ∨ (c = new ∧ p = anchor st)).
Proof.
  intros Hv new h1 h2 Hc.
  assert (∃ y, h1 !! c = Some y ∧ children x = children y
               ∧ parent x = parent y) as (y & Hy & -> & ->).
  { subst h2. destruct (_ <? _)%Z; [|by exists x].
    unfold set_end in Hc. destruct (decide (root = c)) as [<-|Hne].
    - rewrite list_lookup_alter_eq in Hc.
      apply fmap_Some in Hc as (y & Hy & ->). by exists y.
    - rewrite list_lookup_alter_ne in Hc by done. by exists x. }
  unfold h1 in Hy. apply lookup_app_Some in Hy as [Hy|[Hlen Hy]].
  - destruct (Hv _ _ Hy) as [Hch Hpa]. split; [done|]. intros p Hp. left. eauto.
  - apply list_lookup_singleton_Some in Hy as [Hz <-]. simpl. split.
    + by intros i ?%elem_of_nil.
    + intros p [= <-]. right. split; [|done]. unfold new. lia.
Qed.

(** Appending [new] to the children of [t] puts it under [t] and, as no
    object held it before, under nothing else; the references stay
    valid. *)
Lemma children_append_only (h : heap) t new anc :
  length h = S new → (t < S new)%nat → (anc < new)%nat →
  (∀ c x, h !! c = Some x →
     (∀ i, i ∈ children x → (i < new)%nat) ∧
     (∀ p, parent x = Some p → (p < new)%nat ∨ (c = new ∧ p = anc))) →
  (∀ c, child_of (children_append t new h) new c ↔ c = t) ∧
  refs_valid (children_append t new h).
Proof.
  intros Hlen Ht Hanc Hh. split.
  - intros c. split; [|intros ->; apply child_of_append; lia].
    intros (x & Hx & Hin). destruct (decide (t = c)) as [|Hne]; [done|].
    unfold children_append in Hx. rewrite list_lookup_alter_ne in Hx by done.
    destruct (Hh _ _ Hx) as [Hch _]. apply Hch in Hin. lia.
  - intros i x Hx. unfold children_append in *. rewrite length_alter, Hlen.
    destruct (decide (t = i)) as [<-|Hne].
    + rewrite list_lookup_alter_eq in Hx.
      apply fmap_Some in Hx as (y & Hy & ->).
      destruct (Hh _ _ Hy) as [Hch Hpa]. split.
      * intros c [Hc|Hc]%elem_of_app.
        -- apply Hch in Hc. lia.
        -- apply list_elem_of_singleton in Hc. lia.
      * intros p Hp. simpl in Hp. destruct (Hpa _ Hp) as [|[_ ->]]; lia.
    + rewrite list_lookup_alter_ne in Hx by done.
      destruct (Hh _ _ Hx) as [Hch Hpa]. split.
      * intros c Hc. apply Hch in Hc. lia.
      * intros p Hp. destruct (Hpa _ Hp) as [|[_ ->]]; lia.
Qed.

(** C9 (amended). The [parent] of a new element is the anchor of the moment
    it is created, set before the containment test. The test is
    [in_range] on that anchor as it is once the [end] of the root has been
    raised, that is, whether the range of the anchor includes the range
    of the element: where it does, the element is appended to the children
    of the anchor, and of no other object, and the anchor stays; where it
    does not, the element is appended to the children of the root, and of
    no other object, while its [parent] still names the anchor, and a
    class becomes the anchor. Either way the state is again one in which
    the anchor and all references name objects of the heap. *)
Theorem parent_is_anchor_at_creation st k s e :
  (anchor st < length (objects st))%nat →
  refs_valid (objects st) →
  let new := length (objects st) in
  let st' := attach st k s e in
  let a := anchor_at_test st e in
  parent <$> objects st' !! new = Some (Some (anchor st)) ∧
  (LangElement.in_range a s e = true ↔ (start a ≤ s)%Z ∧ (e ≤ end_ a)%Z) ∧
  (if LangElement.in_range a s e
   then (∀ c, child_of (objects st') new c ↔ c = anchor st) ∧
        anchor st' = anchor st
   else (∀ c, child_of (objects st') new c ↔ c = root) ∧
        anchor st' = if String.eqb k "class" then new else anchor st) ∧
  (anchor st' < length (objects st'))%nat ∧
  refs_valid (objects st').
Proof.
  intros Hwf Hv new st' a. split; [apply attach_parent|]. split.
  { unfold LangElement.in_range. rewrite andb_true_iff, Z.leb_le, Z.geb_le.
    done. }
  subst a.
  subst st'. rewrite attach_unfold by done. fold new.
  rewrite attach_test_object by done.
  set (h1 := objects st ++ [mkLangElement k (Some (anchor st)) [] s e]).
  set (h2 := if (_ <? _)%Z then set_end root e h1 else h1).
  assert (length h2 = S new) as Hlen.
  { subst h2 h1. unfold set_end.
    destruct (_ <? _)%Z; rewrite ?length_alter, length_app; simpl; lia. }
  pose proof (λ c x, attach_test_heap st k s e c x Hv) as Hh. cbv zeta in Hh.
  fold new h1 h2 in Hh.
  destruct (LangElement.in_range (anchor_at_test st e) s e);
    cbn [objects anchor].
  - destruct (children_append_only h2 (anchor st) new (anchor st))
      as [Hc Hr]; [done|lia|done|done|].
    unfold children_append at 2. rewrite length_alter, Hlen.
    split; [split; [exact Hc|done]|split; [lia|exact Hr]].
  - destruct (children_append_only h2 root new (anchor st))
      as [Hc Hr]; [done|unfold root; lia|done|done|].
    unfold children_append at 2. rewrite length_alter, Hlen.
    split; [split; [exact Hc|done]|split; [|exact Hr]].
    destruct (String.eqb k "class"); lia.
Qed.

(** Two iterations that start with a class as the anchor, at address 1 and
    with the range 0 to 100. The element of the line
    ["function - [10-20]"] lies within that range and is appended to the
    children of the class. The element of ["function - [200-300]"] does
    not and is appended to the children of the root, while its [parent]
    names the class. *)
Lemma parent_is_anchor_at_creation_witness :
  let st :=
    mkLoop [ mkLangElement "root" None [1%nat] 0 100;
             mkLangElement "class" (Some root) [] 0 100 ] 1%nat in
  let inside := attach st "function" 10 20 in
  let outside := attach st "function" 200 300 in
  (LangElement.in_range (anchor_at_test st 20) 10 20 = true ∧
   parent <$> objects inside !! 2%nat = Some (Some 1%nat) ∧
   (∀ c, child_of (objects inside) 2%nat c ↔ c = 1%nat) ∧
   anchor inside = 1%nat ∧
   refs_valid (objects inside)) ∧
  (LangElement.in_range (anchor_at_test st 300) 200 300 = false ∧
   parent <$> objects outside !! 2%nat = Some (Some 1%nat) ∧
   (∀ c, child_of (objects outside) 2%nat c ↔ c = root) ∧
   anchor outside = 1%nat ∧
   refs_valid (objects outside)).
Proof.
  intros st inside outside.
  assert (anchor st < length (objects st))%nat as Hwf by (simpl; lia).
  assert (refs_valid (objects st)) as Hv.
  { intros [|[|i]] x; simpl; intros [= <-]; simpl; split.
    - intros c Hc. apply list_elem_of_singleton in Hc. lia.
    - done.
    - by intros c ?%elem_of_nil.
    - intros p [= <-]. unfold root. lia. }
  split.
  - destruct (parent_is_anchor_at_creation st "function" 10 20 Hwf Hv)
      as (Hp & _ & [Hc Ha] & _ & Hr).
    split; [reflexivity|]. split; [exact Hp|]. split; [exact Hc|].
    split; [exact Ha|exact Hr].
  - destruct (parent_is_anchor_at_creation st "function" 200 300 Hwf Hv)
      as (Hp & _ & [Hc Ha] & _ & Hr).
    split; [reflexivity|]. split; [exact Hp|]. split; [exact Hc|].
    split; [exact Ha|exact Hr].
Defined.

Lemma mapM_result_Err {A B} (f : A → result B) l x :
  x ∈ l → is_OK (f x) = false → ∃ e, mapM f l = Err e.
Proof.
  induction l as [|y l IH]; [by intros ?%elem_of_nil|].
  intros [<-|Hin]%elem_of_cons Hx; simpl.
  - destruct (f x); [done|]. by eexists.
  - destruct (f y); simpl; [|by eexists].
    destruct (IH Hin Hx) as [e ->]. by eexists.
Qed.

(** A line with fewer than two minus signs is rejected: either there is
    no second piece after the first split, or there is no second range
    field. *)
Lemma parse_line_few_dashes line :
  (PyStr.count "-" line < 2)%nat → is_OK (parse_line line) = false.
Proof.
  intros Hc. unfold parse_line, PyStr.split1.
  destruct (PyStr.partition "-" line) as [h [t|]] eqn:Hp; [|done].
  apply partition_count in Hp.
  assert (PyStr.contains "-" t = false) as Ht by (apply contains_count; lia).
  cbn [PyStr.index lookup list_lookup mbind result_bind].
  rewrite split_no_sep
    by by apply replace_empty_contains, replace_empty_contains, strip_contains.
  cbn [PyStr.index lookup list_lookup mbind result_bind].
  by destruct (PyStr.int _).
Qed.

(** C5 (as stated, refuted). Four lines that violate the grammar and are
    accepted, each with a tree returned: one without brackets, one whose
    kind is not an identifier, one with a third field in the range, and
    one whose numbers are written with a plus sign and an underscore. *)
Lemma ungrammatical_lines_accepted :
  (Grammar.conforms "class - 0-100" = false ∧
   _parse_structure ["class - 0-100"]
   = OK [ mkLangElement "root" None [1%nat] 0 100;
          mkLangElement "class" (Some root) [] 0 100 ]) ∧
  (Grammar.conforms "2 classes - [0-100]" = false ∧
   _parse_structure ["2 classes - [0-100]"]
   = OK [ mkLangElement "root" None [1%nat] 0 100;
          mkLangElement "2 classes" (Some root) [] 0 100 ]) ∧
  (Grammar.conforms "class - [0-100-7]" = false ∧
   _parse_structure ["class - [0-100-7]"]
   = OK [ mkLangElement "root" None [1%nat] 0 100;
          mkLangElement "class" (Some root) [] 0 100 ]) ∧
  (Grammar.conforms "class - [+1-1_0]" = false ∧
   _parse_structure ["class - [+1-1_0]"]
   = OK [ mkLangElement "root" None [1%nat] 0 10;
          mkLangElement "class" (Some root) [] 1 10 ]).
Proof. repeat split; reflexivity. Qed.

(** The line parser accepts no line without an integer range. *)
Lemma parse_line_integer_range line x :
  parse_line line = OK x → has_integer_range line = true.
Proof.
  unfold parse_line, PyStr.split1, has_integer_range, range_fields.
  destruct (PyStr.partition "-" line) as [h [s1|]]; [|done].
  cbn [PyStr.index lookup list_lookup mbind result_bind].
  rewrite without_replace_brackets, split_without by done.
  assert (map PyStr.strip
            (map (without is_bracket) (PyStr.split "-" (PyStr.strip s1)))
          = map (λ f, PyStr.strip (without is_bracket f))
              (PyStr.split "-" s1)) as Hmap.
  { rewrite map_map. apply map_split_strip; [done|..].
    - apply strip_without_lstrip.
    - apply strip_without_rstrip. }
  assert (Forall (λ p, PyStr.contains "-" p = false)
            (map (without is_bracket) (PyStr.split "-" (PyStr.strip s1))))
    as Hp.
  { rewrite <- split_without by done. apply split_pieces. }
  destruct (map (without is_bracket) (PyStr.split "-" (PyStr.strip s1)))
    as [|r0 [|r1 rs]]; [done| |].
  { cbn [PyStr.index lookup list_lookup mbind result_bind].
    by destruct (PyStr.int r0). }
  cbn [PyStr.index lookup list_lookup mbind result_bind].
  destruct (PyStr.split "-" s1) as [|f0 [|f1 fs]]; [done|done|].
  injection Hmap as H0 H1 _.
  apply Forall_cons in Hp as [Hr0 Hp]. apply Forall_cons in Hp as [Hr1 _].
  destruct (PyStr.int r0) as [a|] eqn:Ha; [|done].
  cbn [mbind result_bind].
  destruct (PyStr.int r1) as [b|] eqn:Hb; [|done]. intros _.
  unfold integer_field. rewrite <- H0, <- H1.
  by rewrite (int_literal r0 a), (int_literal r1 b).
Qed.

(** The line parser fails with the [IndexError] of a missing piece or
    with the [ValueError] of [int]. *)
Lemma parse_line_error line e :
  parse_line line = Err e → e = IndexError ∨ e = ValueError.
Proof.
  unfold parse_line, PyStr.index, PyStr.int.
  repeat match goal with
  | |- context [mbind _ (match ?x with _ => _ end)] =>
      destruct x; cbn [mbind result_bind]
  end; intros [= <-]; auto.
Qed.

Lemma mapM_result_Err_source {A B} (f : A → result B) l e :
  mapM f l = Err e → ∃ x, x ∈ l ∧ f x = Err e.
Proof.
  induction l as [|y l IH]; [done|]. simpl.
  destruct (f y) as [b|e'] eqn:Hy; simpl.
  - destruct (mapM f l) as [bs|e'']; [done|]. intros [= <-].
    destruct IH as (x & Hin & Hx); [done|]. exists x. split; [|done].
    by apply elem_of_cons; right.
  - intros [= <-]. exists y. split; [by apply elem_of_cons; left|done].
Qed.

(** C5 (amended). A line is fatal for the whole input, wherever it stands,
    unless it has the separator and, after it, a start and an end that are
    integers: where a line lacks the separator, lacks one of the two
    fields, or has a field that, without its brackets and the white space
    around it, is no integer literal, the builder returns no tree but
    fails with [IndexError] or [ValueError]. *)
Theorem malformed_line_is_fatal lines line :
  line ∈ lines → has_integer_range line = false →
  _parse_structure lines = Err IndexError
  ∨ _parse_structure lines = Err ValueError.
Proof.
  intros Hin Hbad.
  assert (is_OK (parse_line line) = false) as Hrej.
  { destruct (parse_line line) as [x|] eqn:Hx; [|done].
    apply parse_line_integer_range in Hx. congruence. }
  rewrite parse_structure_flat.
  destruct (mapM_result_Err _ _ _ Hin Hrej) as [e He]. rewrite He.
  apply mapM_result_Err_source in He as (l & _ & Hl).
  apply parse_line_error in Hl as [->| ->]; auto.
Qed.

(** The line of the specification, ["class [0-100]"], which lacks the
    separator, and the line ["class - [a-100]"], whose start is no
    integer, each between two well-formed lines. *)
Lemma malformed_line_is_fatal_witness :
  (_parse_structure ["function - [1-2]"; "class [0-100]"; "function - [3-4]"]
   = Err IndexError
   ∨ _parse_structure
       ["function - [1-2]"; "class [0-100]"; "function - [3-4]"]
     = Err ValueError) ∧
  (_parse_structure
     ["function - [1-2]"; "class - [a-100]"; "function - [3-4]"]
   = Err IndexError
   ∨ _parse_structure
       ["function - [1-2]"; "class - [a-100]"; "function - [3-4]"]
     = Err ValueError).
Proof.
  split.
  - apply (malformed_line_is_fatal _ "class [0-100]");
      [apply elem_of_cons; right; by left|reflexivity].
  - apply (malformed_line_is_fatal _ "class - [a-100]");
      [apply elem_of_cons; right; by left|reflexivity].
Defined.

End structure_claims.

(** ** The weight scorer *)

Section scorer_claims.

Import PyNum.

Lemma classes_count h self :
  Z.of_nat (length (Scorer.classes h self)) = ScoreSpec.class_count h self.
Proof.
  unfold Scorer.classes, Scorer.of_kind, Scorer.self_and_children,
    ScoreSpec.class_count, ScoreSpec.count_kind.
  rewrite filter_cons. unfold bool_decide.
  destruct (decide_rel eq (kind (h !!! self)) "class");
    destruct (decide (kind (h !!! self) = "class")); try done;
    cbn [length]; lia.
Qed.

Lemma property_field_count h self :
  Z.of_nat (length (Scorer.fields h self ++ Scorer.properties h self))
  = ScoreSpec.property_field_count h self.
Proof.
  unfold ScoreSpec.property_field_count, ScoreSpec.count_kind.
  rewrite length_app. unfold Scorer.fields, Scorer.properties, Scorer.of_kind.
  lia.
Qed.

Lemma compute_weight_score h self m :
  Scorer.compute_weight h self m = ScoreSpec.score h self m.
Proof.
  unfold Scorer.compute_weight, ScoreSpec.score, ScoreSpec.terms, ScoreSpec.sum.
  cbv zeta. rewrite classes_count, property_field_count.
  reflexivity.
Qed.

(** C3. The weight the code computes is the sum, from 0.0 and without any
    clamping, of the four terms of the scoring table, each a base weight
    times its multiplier; and the sum can be negative although no number
    of the model is: a root with seven classes under it scores below 0 in
    a model whose class limit is 1. *)
Theorem compute_weight_is_unclamped_sum :
  (∀ h self m,
     Scorer.compute_weight h self m
     = (0
        + base_length_weight m
          * ScoreSpec.length_multiplier (end_ (h !!! self)) m
        + base_class_weight m
          * ScoreSpec.class_multiplier (ScoreSpec.class_count h self) m
        + base_function_weight m
          * ScoreSpec.function_multiplier (ScoreSpec.function_count h self) m
        + base_property_or_field_weight m
          * ScoreSpec.property_field_multiplier
              (ScoreSpec.property_field_count h self) m)%float) ∧
  PrimFloat.ltb
    (Scorer.compute_weight seven_classes LangSemantics.root class_only_model)
    0 = true.
Proof.
  split; [|reflexivity]. intros h self m. apply compute_weight_score.
Qed.

End scorer_claims.

(** ** Registry, invoker and batch driver *)

Section registry_facts.

Variable env : Env.

Lemma load_extension file :
  load_semantic_parser env file
  = if PyStr.is_empty (extension_of file) then mret None
    else
      analyzers ← get_analyzers;
      match analyzers !! extension_of file with
      | Some semantics => mret (Some semantics)
      | None =>
          let lang_folder :=
            Path.joinpath (LANG_SEMANTICS_PATH env) (extension_of file) in
          if negb (path_exists env lang_folder) then mret None
          else
            executable ←
              lift (read_text env (Path.joinpath lang_folder "target"));
            let semantics :=
              mkLangSemantics (Path.absolute (cwd env) lang_folder)
                executable in
            _ ← set_analyzer (extension_of file) semantics;
            mret (Some semantics)
      end.
Proof. reflexivity. Qed.

Lemma is_empty_true s : PyStr.is_empty s = true ↔ s = "".
Proof. by destruct s. Qed.

(** A cached extension is served from the cache, whatever the file
    system holds. *)
Lemma load_cached file w s :
  SEMANTIC_ANALYZERS w !! extension_of file = Some s →
  extension_of file ≠ "" →
  load_semantic_parser env file w = (OK (Some s), w).
Proof.
  intros Hc Hne. rewrite load_extension.
  destruct (PyStr.is_empty (extension_of file)) eqn:He.
  - by apply is_empty_true in He.
  - unfold mbind, M_bind, get_analyzers. by rewrite Hc.
Qed.

(** After a lookup that found an analyzer, the analyzer is cached. *)
Lemma load_Some_cached file w w' s :
  load_semantic_parser env file w = (OK (Some s), w') →
  SEMANTIC_ANALYZERS w' !! extension_of file = Some s ∧
  extension_of file ≠ "".
Proof.
  rewrite load_extension.
  destruct (PyStr.is_empty (extension_of file)) eqn:He; [done|].
  assert (extension_of file ≠ "") as Hne
    by (intros Heq; rewrite Heq in He; done).
  unfold mbind, M_bind, get_analyzers.
  destruct (SEMANTIC_ANALYZERS w !! extension_of file) as [s'|] eqn:Hc.
  - intros [= -> <-]. done.
  - cbv zeta. destruct (negb _); [done|].
    unfold lift, set_analyzer, mret, M_ret.
    destruct (read_text env _) as [exe|]; [|done].
    intros [= <- <-]. cbn [SEMANTIC_ANALYZERS]. by rewrite lookup_insert_eq.
Qed.

Lemma load_cache_grown file w r w' :
  load_semantic_parser env file w = (r, w') → cache_grown env w w'.
Proof.
  rewrite load_extension.
  destruct (PyStr.is_empty (extension_of file)) eqn:He;
    [by intros [= _ <-]|].
  unfold mbind, M_bind, get_analyzers.
  destruct (SEMANTIC_ANALYZERS w !! extension_of file) as [s'|] eqn:Hc;
    [by intros [= _ <-]|].
  cbv zeta. destruct (path_exists env _) eqn:Hex; cbn [negb];
    [|by intros [= _ <-]].
  unfold lift, set_analyzer, mret, M_ret.
  destruct (read_text env _) as [exe|]; [|by intros [= _ <-]].
  intros [= _ <-] ext Hext. cbn [SEMANTIC_ANALYZERS].
  apply lookup_insert_ne. intros <-. congruence.
Qed.

Lemma load_no_analyzer file w :
  no_analyzer env w file →
  load_semantic_parser env (Path.absolute (cwd env) file) w = (OK None, w).
Proof.
  unfold no_analyzer. cbv zeta. rewrite load_extension.
  intros [->|[Hc Hex]]; [done|].
  destruct (PyStr.is_empty _); [done|].
  unfold mbind, M_bind, get_analyzers. rewrite Hc. cbv zeta.
  by rewrite Hex.
Qed.

Lemma analyze_cache s file w r w' :
  analyze env s file w = (r, w') →
  SEMANTIC_ANALYZERS w' = SEMANTIC_ANALYZERS w.
Proof.
  unfold analyze, subprocess_run_check, note_started, raise, lift.
  unfold mbind, M_bind, mret, M_ret. cbv zeta.
  destruct (returncode _ =? 0)%Z; [|by intros [= _ <-]].
  destruct (decode_utf8 env _); [|by intros [= _ <-]].
  destruct (LangSemantics._parse_structure _); [|by intros [= _ <-]].
  destruct (SemanticWeightModel_parse env _); by intros [= _ <-].
Qed.

End registry_facts.

Section engine_claims.

Variable env : Env.

(** C7. When the analyzer process ends with a status other than 0,
    [analyze] raises [CalledProcessError] with that status. One process
    has been started and nothing else has changed; the bytes the process
    wrote are neither decoded nor parsed, so the outcome is the same
    whatever they are. *)
Theorem analyze_nonzero_exit_is_fatal self file w :
  returncode (run_process env (analyzer_args self file) (lang_dir self)) ≠ 0%Z →
  analyze env self file w
  = (Err (CalledProcessError
            (returncode
               (run_process env (analyzer_args self file) (lang_dir self)))),
     {| SEMANTIC_ANALYZERS := SEMANTIC_ANALYZERS w;
        started := started w ++ [(analyzer_args self file, lang_dir self)];
        printed := printed w |}).
Proof.
  intros Hrc. unfold analyze, subprocess_run_check, note_started, raise.
  unfold mbind, M_bind. cbv zeta.
  by destruct (Z.eqb_spec (returncode (run_process env
    (analyzer_args self file) (lang_dir self))) 0).
Qed.

Lemma M_bind_ret {A} (m : M A) w : (x ← m; mret x) w = m w.
Proof.
  unfold mbind, M_bind, mret, M_ret. by destruct (m w) as [[?|?] ?].
Qed.

(** A second lookup right after a successful one hits the cache, so the
    assertion of [compute_semantic_weight] holds; the file system is not
    consulted again and may even have changed ([env']). *)
Lemma compute_after_has env' file w w1 :
  has_semantic_parser env file w = (OK true, w1) →
  ∃ s, load_semantic_parser env' file w1 = (OK (Some s), w1) ∧
       compute_semantic_weight env' file w1 = analyze env' s file w1.
Proof.
  unfold has_semantic_parser, mbind, M_bind, mret, M_ret.
  destruct (load_semantic_parser env file w) as [[[s|]|e] w'] eqn:Hl;
    [|done..].
  intros [= <-]. apply load_Some_cached in Hl as [Hc Hne].
  pose proof (load_cached env' file w' s Hc Hne) as Hl'.
  exists s. split; [done|].
  unfold compute_semantic_weight, mbind, M_bind. by rewrite Hl'.
Qed.

(** The three ways through the loop body of the batch driver. *)
Lemma grouped_body_cases file w :
  let abs_file := Path.absolute (cwd env) file in
  (∃ w', has_semantic_parser env abs_file w = (OK false, w') ∧
         w' = w ∧ grouped_body env file w = (OK fallback_pair, w'))
  ∨ (∃ s w', has_semantic_parser env abs_file w = (OK true, w') ∧
             grouped_body env file w = analyze env s abs_file w')
  ∨ (∃ e w', load_semantic_parser env abs_file w = (Err e, w') ∧
             grouped_body env file w = (Err e, w')).
Proof.
  intros abs_file. unfold grouped_body. fold abs_file.
  destruct (has_semantic_parser env abs_file w) as [[[|]|e] w'] eqn:Hh.
  - right. left.
    destruct (compute_after_has env _ _ _ Hh) as (s & _ & Hc).
    exists s, w'. split; [done|].
    unfold mbind at 1. unfold M_bind at 1. rewrite Hh.
    by rewrite M_bind_ret.
  - left. exists w'. split; [done|].
    unfold mbind, M_bind. rewrite Hh. split; [|done].
    revert Hh. unfold has_semantic_parser, mbind, M_bind, mret, M_ret.
    destruct (load_semantic_parser env abs_file w) as [[[s|]|e] w''] eqn:Hl;
      [done| |done].
    intros [= <-]. revert Hl. rewrite load_extension.
    destruct (PyStr.is_empty _); [by intros [= <-]|].
    unfold mbind, M_bind, get_analyzers.
    destruct (SEMANTIC_ANALYZERS w !! _); [done|]. cbv zeta.
    destruct (negb _); [by intros [= <-]|].
    unfold lift, set_analyzer, mret, M_ret. by destruct (read_text env _).
  - right. right. exists e, w'.
    unfold mbind, M_bind. rewrite Hh. split; [|done].
    revert Hh. unfold has_semantic_parser, mbind, M_bind, mret, M_ret.
    destruct (load_semantic_parser env abs_file w) as [[[s|]|e'] w''];
      intros Heq; [done|done|]. by injection Heq as <- <-.
Qed.

(** C10. Called on a file for which the lookup finds no analyzer,
    [compute_semantic_weight] fails by its assertion. The batch driver
    never gets there: after [has_semantic_parser] has answered true the
    same lookup succeeds and the analysis runs; after it has answered
    false the fallback pair is emitted without a call; and if the lookup
    itself raises, that exception leaves the loop before any call. *)
Theorem assertion_unreachable_from_batch :
  (∀ file w w',
     load_semantic_parser env file w = (OK None, w') →
     compute_semantic_weight env file w
     = (Err (AssertionError ("No semantic parser for " ++ Path.str file)), w'))
  ∧ (∀ file w w1,
       has_semantic_parser env file w = (OK true, w1) →
       ∃ s, load_semantic_parser env file w1 = (OK (Some s), w1) ∧
            compute_semantic_weight env file w1 = analyze env s file w1)
  ∧ (∀ file w,
       let abs_file := Path.absolute (cwd env) file in
       (∃ w', has_semantic_parser env abs_file w = (OK false, w') ∧
              w' = w ∧ grouped_body env file w = (OK fallback_pair, w'))
       ∨ (∃ s w', has_semantic_parser env abs_file w = (OK true, w') ∧
                  grouped_body env file w = analyze env s abs_file w')
       ∨ (∃ e w', load_semantic_parser env abs_file w = (Err e, w') ∧
                  grouped_body env file w = (Err e, w'))).
Proof.
  split; [|split].
  - intros file w w' Hl. unfold compute_semantic_weight, mbind, M_bind.
    by rewrite Hl.
  - intros file w w1. apply compute_after_has.
  - apply grouped_body_cases.
Qed.

Lemma cache_grown_refl w : cache_grown env w w.
Proof. by intros ext _. Qed.

Lemma cache_grown_trans w1 w2 w3 :
  cache_grown env w1 w2 → cache_grown env w2 w3 → cache_grown env w1 w3.
Proof. intros H12 H23 ext Hext. by rewrite H23, H12. Qed.

Lemma cache_grown_same w w' :
  SEMANTIC_ANALYZERS w' = SEMANTIC_ANALYZERS w → cache_grown env w w'.
Proof. intros Heq ext _. by rewrite Heq. Qed.


Lemma grouped_body_no_analyzer file w :
  no_analyzer env w file → grouped_body env file w = (OK fallback_pair, w).
Proof.
  intros Hno. unfold grouped_body, has_semantic_parser, mbind, M_bind.
  by rewrite load_no_analyzer.
Qed.

Lemma grouped_body_grown file w r w' :
  grouped_body env file w = (r, w') → cache_grown env w w'.
Proof.
  intros Hb.
  destruct (grouped_body_cases file w)
    as [(w1 & _ & -> & Hg)|[(s & w1 & Hh & Hg)|(e & w1 & Hl & Hg)]];
    rewrite Hg in Hb.
  - injection Hb as _ <-. apply cache_grown_refl.
  - apply cache_grown_trans with w1.
    + revert Hh. unfold has_semantic_parser, mbind, M_bind, mret, M_ret.
      destruct (load_semantic_parser env _ w) as [[o|e] w2] eqn:Hl;
        intros [= _ <-]; by eapply load_cache_grown.
    + apply cache_grown_same. by eapply analyze_cache.
  - injection Hb as _ <-. by eapply load_cache_grown.
Qed.




End engine_claims.

(** ** The claims on a sample run *)

Section sample_run.

Lemma analyze_nonzero_exit_is_fatal_witness :
  analyze sample_env cs_analyzer bad_file empty_world
  = (Err (CalledProcessError 1),
     {| SEMANTIC_ANALYZERS := ∅;
        started :=
          [(["dotnet"; "analyzer.dll";
             "/app/lang-semantics/declarations.json"; "/repo/bad.cs"],
            cs_dir)];
        printed := [] |}).
Proof.
  apply (analyze_nonzero_exit_is_fatal sample_env cs_analyzer bad_file
           empty_world).
  vm_compute. discriminate.
Defined.

Lemma assertion_unreachable_from_batch_witness :
  (∃ msg,
     compute_semantic_weight sample_env bin_file empty_world
     = (Err (AssertionError msg), empty_world))
  ∧ (∃ w1 s,
       has_semantic_parser sample_env good_file empty_world = (OK true, w1) ∧
       compute_semantic_weight sample_env good_file w1
       = analyze sample_env s good_file w1).
Proof.
  destruct (assertion_unreachable_from_batch sample_env) as (Ha & Hb & _).
  split.
  - eexists. apply Ha. reflexivity.
  - eexists _. 
    destruct (Hb good_file empty_world _ eq_refl) as (s & _ & Hs).
    exists s. split; [reflexivity|exact Hs].
Defined.


End sample_run.


(** ** Worked examples *)

Section examples.

Import LangSemantics.

Example int_plain : PyStr.int "100" = OK 100%Z.
Proof. reflexivity. Qed.

Example int_spaces_and_underscore : PyStr.int " 1_000 " = OK 1000%Z.
Proof. reflexivity. Qed.

Example int_trailing_bracket : PyStr.int "100]" = Err ValueError.
Proof. reflexivity. Qed.

Example int_empty : PyStr.int "" = Err ValueError.
Proof. reflexivity. Qed.

Example int_double_underscore : PyStr.int "1__0" = Err ValueError.
Proof. reflexivity. Qed.

(** [int] does not skip U+001C, which [strip] removes. *)
Example int_file_separator :
  PyStr.int (String "028" "5") = Err ValueError ∧
  PyStr.strip (String "028" "5") = "5".
Proof. split; reflexivity. Qed.

Example int_signed : PyStr.int "-12" = OK (-12)%Z ∧ PyStr.int "+7" = OK 7%Z.
Proof. split; reflexivity. Qed.

Example split_range : PyStr.split "-" "0-100" = ["0"; "100"].
Proof. reflexivity. Qed.

Example split_only_separator : PyStr.split "-" "-" = [""; ""].
Proof. reflexivity. Qed.

Example split1_line : PyStr.split1 "-" "class - [0-100]" = ["class "; " [0-100]"].
Proof. reflexivity. Qed.

Example split1_no_separator : PyStr.split1 "-" "class" = ["class"].
Proof. reflexivity. Qed.

Example split_ws_tool : PyStr.split_ws "  dotnet   run x " = ["dotnet"; "run"; "x"].
Proof. reflexivity. Qed.

Example splitlines_crlf :
  PyStr.splitlines_keepends
    (String "a" (String "013" (String "010" (String "b" (String "010" "")))))
  = [String "a" (String "013" (String "010" "")); String "b" (String "010" "")].
Proof. reflexivity. Qed.

Example parse_line_plain : parse_line "class - [0-100]" = OK ("class", 0%Z, 100%Z).
Proof. reflexivity. Qed.

Example parse_line_newline :
  parse_line (String.append "function - [10-20]" (String "010" ""))
  = OK ("function", 10%Z, 20%Z).
Proof. reflexivity. Qed.

Example parse_line_no_separator : parse_line "class [0-100]" = Err IndexError.
Proof. reflexivity. Qed.

Example parse_line_empty : parse_line "" = Err IndexError.
Proof. reflexivity. Qed.

Example parse_line_not_a_number : parse_line "class - [a-100]" = Err ValueError.
Proof. reflexivity. Qed.

(** A minus sign before the start is read as a separator. *)
Example parse_line_negative_start : parse_line "class - [-5-100]" = Err ValueError.
Proof. reflexivity. Qed.

Example parse_line_extra_field : parse_line "class - [0-100-7]" = OK ("class", 0%Z, 100%Z).
Proof. reflexivity. Qed.

Example grammar_examples :
  Grammar.conforms "class - [0-100]" = true ∧
  Grammar.conforms " my_fn1  -  [ 0 - 100 ] " = true ∧
  Grammar.conforms "class [0-100]" = false ∧
  Grammar.conforms "class - [0-100-7]" = false ∧
  Grammar.conforms "class - 0-100" = false.
Proof. repeat split; reflexivity. Qed.

Example suffix_examples :
  Path.suffix ["/"; "a"; "b.cs"] = ".cs" ∧ Path.suffix [".gitignore"] = "" ∧
  Path.suffix ["LICENCE"] = "" ∧ Path.suffix ["a."] = "" ∧
  Path.suffix ["a.tar.gz"] = ".gz".
Proof. repeat split; reflexivity. Qed.

Example extension_examples :
  extension_of ["/"; "a"; "b.cs"] = "cs" ∧
  extension_of [".gitignore"] = ".gitignore" ∧
  extension_of ["LICENCE"] = "".
Proof. repeat split; reflexivity. Qed.

Example compare_exact :
  PyNum.int_gt_float 150 100 = true ∧ PyNum.int_lt_float 3 3.5 = true ∧
  PyNum.int_gt_float 4 3.5 = true ∧ PyNum.int_gt_float 3 3.5 = false ∧
  PyNum.int_gt_float (2 ^ 53 + 1) 9007199254740992 = true ∧
  PyNum.int_lt_float (-1) (-0.5) = true ∧
  PyNum.int_gt_float 1 nan = false ∧ PyNum.int_lt_float 1 nan = false.
Proof. repeat split; reflexivity. Qed.

(** Section 8: with [baseLengthWeight=10], [lengthUpperLimit=100] and
    [lengthUpperLimitMultiplier=0.5], an element with [end=150] contributes
    5.0 by its length. *)
Example length_term_example :
  (base_length_weight example_model
   * ScoreSpec.length_multiplier 150 example_model)%float = 5%float.
Proof. reflexivity. Qed.

(** Section 8: with [functionUpperLimit=20] and 25 functions the multiplier
    is [1.0 - 0.05*(25-20) = 0.75]. *)
Example function_multiplier_example :
  ScoreSpec.function_multiplier 25 example_model = 0.75%float.
Proof. reflexivity. Qed.

Example compute_weight_four_lines :
  Scorer.compute_weight (flat_heap [("class", 0, 100); ("function", 10, 20);
                                    ("function", 30, 40); ("class", 110, 120)]%Z)
    root example_model = 6%float.
Proof. reflexivity. Qed.

(** Section 8, the fallback scenario: [supported.cs, unsupported.bin] gives
    two pairs, the second being the fallback pair. *)
Example batch_supported_then_unsupported :
  (compute_semantic_weight_result sample_env
     [mkFileGroup [good_file; bin_file]] false empty_world).1
  = OK [[(example_model,
          flat_heap [("class", 0, 100); ("function", 10, 20);
                     ("function", 30, 40); ("class", 110, 120)]%Z);
         fallback_pair]].
Proof. vm_compute. reflexivity. Qed.

(** A failing analyzer makes the whole batch fail: no fallback stands in. *)
Example batch_with_failing_analyzer :
  (compute_semantic_weight_result sample_env
     [mkFileGroup [bin_file; bad_file; good_file]] false empty_world).1
  = Err (CalledProcessError 1).
Proof. vm_compute. reflexivity. Qed.

End examples.

(** * Further properties of the code *)

(** ** The line parser on the lines it is written for *)

Lemma append_nil_l (b : string) : ("" ++ b)%string = b.
Proof. reflexivity. Qed.

Lemma append_cons x (a b : string) :
  (String x a ++ b)%string = String x (a ++ b)%string.
Proof. reflexivity. Qed.

Ltac push_append := rewrite ?append_cons, ?append_nil_l.

Lemma append_assoc_s (a b c : string) :
  (a ++ (b ++ c))%string = ((a ++ b) ++ c)%string.
Proof. induction a as [|x a IH]; [done|]. push_append. by rewrite IH. Qed.

Ltac norm_append :=
  repeat first
    [ rewrite <- append_assoc_s | rewrite append_cons | rewrite append_nil_l ].

Section parser_extras.

Import PyStr LangSemantics.

Lemma contains_app c a b : contains c (a ++ b) = contains c a || contains c b.
Proof.
  induction a as [|x a IH]; [done|]. push_append. simpl.
  by rewrite IH, orb_assoc.
Qed.

Lemma partition_app sep a b :
  contains sep a = false →
  partition sep (a ++ b) = ((a ++ (partition sep b).1)%string, (partition sep b).2).
Proof.
  induction a as [|x a IH]; intros Ha; push_append; simpl.
  - by destruct (partition sep b).
  - apply contains_cons_false in Ha as [Hx Ha]. rewrite Hx, (IH Ha).
    by destruct (partition sep b).
Qed.

Lemma split_app sep a b :
  contains sep a = false →
  split sep (a ++ String sep b) = a :: split sep b.
Proof.
  induction a as [|x a IH]; intros Ha; push_append; simpl.
  - by rewrite Ascii.eqb_refl.
  - apply contains_cons_false in Ha as [Hx Ha]. by rewrite Hx, (IH Ha).
Qed.

Lemma replace_app old new a b :
  replace old new (a ++ b) = (replace old new a ++ replace old new b)%string.
Proof.
  induction a as [|x a IH]; [done|]. push_append. simpl.
  destruct (Ascii.eqb x old); rewrite IH; [|done].
  apply append_assoc_s.
Qed.

Lemma replace_absent old new s :
  contains old s = false → replace old new s = s.
Proof.
  induction s as [|x s IH]; [done|]. intros [Hx Hs]%contains_cons_false.
  simpl. by rewrite Hx, IH.
Qed.

Lemma rstrip_by_app p a b :
  rstrip_by p b ≠ "" → rstrip_by p (a ++ b) = (a ++ rstrip_by p b)%string.
Proof.
  intros Hb. induction a as [|x a IH]; [done|]. push_append. simpl.
  rewrite IH.
  destruct (a ++ rstrip_by p b)%string eqn:Hab; [|done].
  destruct a; [|done]. by rewrite append_nil_l in Hab.
Qed.

Lemma rstrip_by_all p (ws : string) :
  (∀ c, contains c ws = true → p c = true) → rstrip_by p ws = "".
Proof.
  induction ws as [|x ws IH]; [done|]. intros Hall. simpl. rewrite IH.
  - simpl. rewrite (Hall x); [done|]. simpl. by rewrite Ascii.eqb_refl.
  - intros c Hc. apply Hall. simpl. rewrite Hc. apply orb_true_r.
Qed.

Lemma all_space_contains ws c :
  all_space ws = true → contains c ws = true → is_space c = true.
Proof.
  induction ws as [|x ws IH]; [done|]. simpl.
  intros [Hx Hws]%andb_true_iff [Hc|Hc]%orb_true_iff.
  - apply Ascii.eqb_eq in Hc. by subst.
  - by apply IH.
Qed.

(** Trailing white space does not survive [rstrip]. *)
Lemma rstrip_app_space s ws :
  all_space ws = true → rstrip (s ++ ws) = rstrip s.
Proof.
  intros Hws. unfold rstrip. induction s as [|x s IH]; push_append; simpl.
  - apply rstrip_by_all. intros c. by apply all_space_contains.
  - by rewrite IH.
Qed.

Lemma all_digits_contains ds c :
  all_digits ds = true → contains c ds = true → is_digit c = true.
Proof.
  induction ds as [|x ds IH]; [done|]. simpl.
  intros [Hx Hds]%andb_true_iff [Hc|Hc]%orb_true_iff.
  - apply Ascii.eqb_eq in Hc. by subst.
  - by apply IH.
Qed.

Lemma all_digits_absent ds c :
  all_digits ds = true → is_digit c = false → contains c ds = false.
Proof.
  intros Hds Hc. destruct (contains c ds) eqn:Hin; [|done].
  apply (all_digits_contains _ _ Hds) in Hin. congruence.
Qed.

Lemma is_digit_not_int_space c : is_digit c = true → is_int_space c = false.
Proof.
  unfold is_digit, is_int_space. intros [H1 H2]%andb_true_iff.
  apply N.leb_le in H1, H2.
  repeat (apply orb_false_iff; split);
    try apply andb_false_iff; rewrite ?N.leb_gt, ?N.eqb_neq; lia.
Qed.

Lemma int_digits_all_digits ds acc :
  all_digits ds = true → int_digits ds acc true = Some (decimal_acc ds acc).
Proof.
  revert acc. induction ds as [|c ds IH]; intros acc; [done|]. simpl.
  intros [Hc Hds]%andb_true_iff. rewrite Hc. by apply IH.
Qed.

Lemma digit_count_all_digits ds :
  all_digits ds = true → digit_count ds = N.of_nat (String.length ds).
Proof.
  induction ds as [|c ds IH]; [done|]. cbn [all_digits digit_count String.length].
  intros [Hc Hds]%andb_true_iff. rewrite Hc, IH by done. lia.
Qed.

(** [int] reads a text of digits, no more of them than the interpreter
    converts, as its decimal value. *)
Lemma int_number ds :
  is_number ds = true →
  (N.of_nat (String.length ds) ≤ int_max_str_digits)%N →
  int ds = OK (decimal_value ds).
Proof.
  unfold is_number. intros [Hne Hds]%andb_true_iff Hlen. unfold int.
  rewrite lstrip_by_keeps, rstrip_by_keeps;
    try (intros c Hc; apply is_digit_not_int_space;
         by eapply all_digits_contains).
  destruct ds as [|c ds]; [done|].
  assert (Ascii.eqb c "+" = false) as ->.
  { apply Ascii.eqb_neq. intros ->. done. }
  assert (Ascii.eqb c "-" = false) as ->.
  { apply Ascii.eqb_neq. intros ->. done. }
  rewrite digit_count_all_digits by done.
  apply N.leb_le in Hlen. rewrite Hlen.
  simpl in Hds. apply andb_true_iff in Hds as [Hc Hds].
  simpl. rewrite Hc. unfold decimal_value. simpl.
  by rewrite int_digits_all_digits.
Qed.

Lemma digit_count_lstrip_by p s :
  (∀ c, is_digit c = true → p c = false) →
  digit_count (lstrip_by p s) = digit_count s.
Proof.
  intros Hp. induction s as [|c s IH]; [done|]. simpl.
  destruct (p c) eqn:Hc; [|done]. rewrite IH.
  destruct (is_digit c) eqn:Hd; [|done]. apply Hp in Hd. congruence.
Qed.

Lemma digit_count_rstrip_by p s :
  (∀ c, is_digit c = true → p c = false) →
  digit_count (rstrip_by p s) = digit_count s.
Proof.
  intros Hp. induction s as [|c s IH]; [done|]. simpl.
  destruct (is_empty (rstrip_by p s) && p c) eqn:Hc; simpl.
  - apply andb_true_iff in Hc as [He Hc].
    destruct (rstrip_by p s); [|done]. simpl in IH. rewrite <- IH.
    destruct (is_digit c) eqn:Hd; [|done]. apply Hp in Hd. congruence.
  - by rewrite IH.
Qed.

(** A text of more digits is refused, whatever stands around the digits. *)
Lemma int_too_long s :
  (int_max_str_digits < digit_count s)%N → int s = Err ValueError.
Proof.
  intros Hlen. unfold int.
  rewrite <- (digit_count_lstrip_by is_int_space),
          <- (digit_count_rstrip_by is_int_space) in Hlen
    by apply is_digit_not_int_space.
  destruct (rstrip_by is_int_space (lstrip_by is_int_space s)) as [|c t].
  { cbn in Hlen. unfold int_max_str_digits in Hlen. lia. }
  destruct (Ascii.eqb_spec c "+") as [->|_].
  { change (digit_count (String "+" t)) with (digit_count t) in Hlen.
    apply N.leb_gt in Hlen. by rewrite Hlen. }
  destruct (Ascii.eqb_spec c "-") as [->|_].
  { change (digit_count (String "-" t)) with (digit_count t) in Hlen.
    apply N.leb_gt in Hlen. by rewrite Hlen. }
  apply N.leb_gt in Hlen. by rewrite Hlen.
Qed.

(** The limit at work: 4300 digits are converted, 4301 are not. *)
Example int_digit_limit :
  is_OK (int (string_of_list_ascii (replicate 4300 "1"%char))) = true ∧
  int (string_of_list_ascii (replicate 4301 "1"%char)) = Err ValueError.
Proof. split; by vm_compute. Qed.

Lemma append_nil_r (a : string) : (a ++ "")%string = a.
Proof. induction a as [|x a IH]; [done|]. push_append. by rewrite IH. Qed.

Lemma lstrip_by_length p s :
  (String.length (lstrip_by p s) ≤ String.length s)%nat.
Proof.
  induction s as [|c s IH]; [done|]. simpl. destruct (p c); simpl; lia.
Qed.

Lemma rstrip_by_length p s :
  (String.length (rstrip_by p s) ≤ String.length s)%nat.
Proof.
  induction s as [|c s IH]; [done|]. simpl.
  destruct (is_empty (rstrip_by p s) && p c); simpl; lia.
Qed.

Lemma lstrip_by_same_length p s :
  String.length (lstrip_by p s) = String.length s → lstrip_by p s = s.
Proof.
  destruct s as [|c s]; [done|]. simpl. destruct (p c); [|done].
  pose proof (lstrip_by_length p s). simpl. lia.
Qed.

(** A text that [strip] leaves alone has no white space at either end. *)
Lemma strip_fixed s : strip s = s → lstrip s = s ∧ rstrip s = s.
Proof.
  intros Hs. assert (lstrip s = s) as Hl.
  { apply lstrip_by_same_length.
    pose proof (lstrip_by_length is_space s).
    pose proof (rstrip_by_length is_space (lstrip_by is_space s)).
    unfold strip, rstrip, lstrip in Hs. rewrite Hs in *. lia. }
  split; [done|]. unfold strip in Hs. by rewrite Hl in Hs.
Qed.

Lemma rstrip_by_idem p s : rstrip_by p (rstrip_by p s) = rstrip_by p s.
Proof.
  induction s as [|c s IH]; [done|]. simpl.
  destruct (is_empty (rstrip_by p s) && p c) eqn:Hc; [done|].
  simpl. by rewrite IH, Hc.
Qed.

Lemma rstrip_by_head p c s :
  p c = false → rstrip_by p (String c s) = String c (rstrip_by p s).
Proof. intros Hc. simpl. by rewrite Hc, andb_false_r. Qed.

Lemma lstrip_by_head p s :
  match lstrip_by p s with
  | EmptyString => True
  | String c _ => p c = false
  end.
Proof.
  induction s as [|c s IH]; [done|]. simpl. by destruct (p c) eqn:Hc.
Qed.

(** [strip] is idempotent. *)
Lemma strip_idem s : strip (strip s) = strip s.
Proof.
  unfold strip, lstrip, rstrip.
  pose proof (lstrip_by_head is_space s) as Hh.
  destruct (lstrip_by is_space s) as [|c t]; [done|].
  rewrite (rstrip_by_head _ _ _ Hh). simpl. rewrite Hh.
  by rewrite (rstrip_by_head _ _ _ Hh), rstrip_by_idem.
Qed.

Lemma strip_app_space k ws :
  strip k = k → all_space ws = true → strip (k ++ ws) = k.
Proof.
  intros [Hl Hr]%strip_fixed Hws. unfold strip.
  destruct k as [|c k].
  - rewrite append_nil_l. unfold lstrip.
    assert (lstrip_by is_space ws = "") as ->; [|done].
    clear -Hws. induction ws as [|x ws IH]; [done|]. simpl in *.
    apply andb_true_iff in Hws as [-> Hws]. by apply IH.
  - pose proof (lstrip_by_head is_space (String c k)) as Hh.
    unfold lstrip in Hl. rewrite Hl in Hh.
    unfold lstrip. push_append. simpl. rewrite Hh.
    rewrite <- append_cons. by rewrite rstrip_app_space.
Qed.

Lemma canonical_split1 k ds de nl :
  contains "-" k = false →
  split1 "-" (canonical_line k ds de nl)
  = [(k ++ " ")%string; (" [" ++ ds ++ "-" ++ de ++ "]" ++ nl)%string].
Proof.
  intros Hk. unfold split1, canonical_line. by rewrite partition_app.
Qed.

Lemma canonical_range_strip ds de nl :
  all_space nl = true →
  strip (" [" ++ ds ++ "-" ++ de ++ "]" ++ nl)
  = ("[" ++ ds ++ "-" ++ de ++ "]")%string.
Proof.
  intros Hnl. unfold strip.
  assert (lstrip (" [" ++ ds ++ "-" ++ de ++ "]" ++ nl)
          = (("[" ++ ds ++ "-" ++ de ++ "]") ++ nl)%string) as ->.
  { push_append. unfold lstrip. simpl. by norm_append. }
  rewrite rstrip_app_space by done. unfold rstrip.
  replace ("[" ++ ds ++ "-" ++ de ++ "]")%string
    with (("[" ++ ds ++ "-" ++ de) ++ "]")%string
    by by norm_append.
  by rewrite rstrip_by_app.
Qed.

Lemma canonical_range_brackets ds de :
  all_digits ds = true → all_digits de = true →
  replace "]" "" (replace "[" "" ("[" ++ ds ++ "-" ++ de ++ "]"))
  = (ds ++ "-" ++ de)%string.
Proof.
  intros Hds Hde.
  assert (∀ c, is_digit c = false → Ascii.eqb "-" c = false →
               contains c (ds ++ "-" ++ de) = false) as Habs.
  { intros c Hc Hm. rewrite contains_app, (all_digits_absent ds) by done.
    push_append. cbn [contains]. by rewrite Hm, (all_digits_absent de). }
  push_append. simpl. rewrite append_nil_l.
  replace (ds ++ String "-" (de ++ "]"))%string
    with ((ds ++ "-" ++ de) ++ "]")%string
    by by norm_append.
  rewrite replace_app, (replace_absent "[" _ (ds ++ "-" ++ de)) by by apply Habs.
  rewrite replace_app, (replace_absent "]" _ (ds ++ "-" ++ de)) by by apply Habs.
  simpl. by rewrite !append_nil_r.
Qed.

(** X1. A line in the form the analyzers print, [kind - [start-end]] with
    any white space after it, is read as exactly its kind and the decimal
    values of its two numbers, provided the kind has no minus sign and no
    white space around it and neither number has more digits than [int]
    converts. *)
Theorem canonical_line_parses k ds de nl :
  contains "-" k = false → strip k = k →
  is_number ds = true → is_number de = true →
  (N.of_nat (String.length ds) ≤ int_max_str_digits)%N →
  (N.of_nat (String.length de) ≤ int_max_str_digits)%N →
  all_space nl = true →
  parse_line (canonical_line k ds de nl)
  = OK (k, decimal_value ds, decimal_value de).
Proof.
  intros Hk Hstrip Hds Hde Hls Hle Hnl. unfold parse_line.
  rewrite canonical_split1 by done.
  cbn [index lookup list_lookup mbind result_bind].
  rewrite strip_app_space by done.
  rewrite canonical_range_strip by done.
  pose proof Hds as [_ Hds']%andb_true_iff.
  pose proof Hde as [_ Hde']%andb_true_iff.
  rewrite canonical_range_brackets by done. push_append.
  rewrite split_app by by apply all_digits_absent.
  rewrite split_no_sep by by apply all_digits_absent.
  cbn [index lookup list_lookup mbind result_bind].
  rewrite (int_number ds), (int_number de) by done.
  reflexivity.
Qed.

Lemma canonical_line_parses_witness :
  parse_line (canonical_line "function" "10" "20" (String "010" ""))
  = OK ("function", 10%Z, 20%Z).
Proof.
  apply (canonical_line_parses "function" "10" "20" (String "010" ""));
    (reflexivity || by vm_compute).
Defined.

End parser_extras.

(** ** Trees the builder returns *)

Section builder_extras.

Import LangSemantics.

Lemma parse_line_kind line k s e :
  parse_line line = OK (k, s, e) →
  PyStr.contains "-" k = false ∧ PyStr.strip k = k.
Proof.
  unfold parse_line, PyStr.split1.
  pose proof (partition_head "-" line) as Hh.
  destruct (PyStr.partition "-" line) as [h0 [t|]]; [|done].
  cbn [PyStr.index lookup list_lookup mbind result_bind].
  destruct (PyStr.index _ 0) as [r0|]; [simpl|done].
  destruct (PyStr.int r0) as [a|]; [simpl|done].
  destruct (PyStr.index _ 1) as [r1|]; [simpl|done].
  destruct (PyStr.int r1) as [b|]; [simpl|done].
  intros [= <- <- <-]. split.
  - by apply strip_contains.
  - apply strip_idem.
Qed.

(** X2. In a tree the builder returns, the kind of every element, the root
    included, has no white space at either end and no minus sign in it: the
    text before the first minus sign of the line is all the kind there
    is. *)
Theorem parsed_kinds_are_clean lines h x :
  _parse_structure lines = OK h → x ∈ h →
  PyStr.contains "-" (kind x) = false ∧ PyStr.strip (kind x) = kind x.
Proof.
  intros (elems & -> & Hall)%parse_structure_elements Hx.
  apply list_elem_of_lookup in Hx as [[|i] Hi].
  - injection Hi as <-. by split.
  - apply flat_heap_lookup_S in Hi as ([[k s] e] & Hi & ->).
    destruct (Forall2_lookup_r _ _ _ _ _ Hall Hi) as (line & _ & Hp).
    by apply parse_line_kind in Hp.
Qed.

Lemma parsed_kinds_are_clean_witness :
  ∃ h x, _parse_structure ["  my kind  - [1-2]"] = OK h ∧ h !! 1%nat = Some x ∧
         kind x = "my kind" ∧
         PyStr.contains "-" (kind x) = false ∧ PyStr.strip (kind x) = kind x.
Proof.
  eexists _, _. split; [reflexivity|]. split; [reflexivity|].
  split; [reflexivity|].
  apply (parsed_kinds_are_clean ["  my kind  - [1-2]"] _ _ eq_refl).
  apply elem_of_cons. right. by left.
Defined.

(** X3. The object graph the builder returns is a well-formed tree: every
    reference names an allocated object, no [children] list holds an
    address twice, the root is the only element without a parent, every
    other element lies in exactly one [children] list, and a child always
    has a greater address than the element that holds it, so there is no
    cycle. *)
Theorem parsed_tree_is_well_formed lines h :
  _parse_structure lines = OK h →
  refs_valid h ∧
  (∀ x, x ∈ h → NoDup (children x)) ∧
  (∀ i x, h !! i = Some x → parent x = None ↔ i = root) ∧
  (∀ i, (0 < i < length h)%nat → ∃ c, child_of h i c ∧ ∀ c', child_of h i c' → c' = c) ∧
  (∀ i c, child_of h i c → (c < i)%nat).
Proof.
  intros (elems & -> & _)%parse_structure_elements.
  split; [|split; [|split; [|split]]].
  - intros [|i] x Hi.
    + injection Hi as <-. simpl. split; [|done].
      intros c Hc%elem_of_seq. rewrite length_map. lia.
    + apply flat_heap_lookup_S in Hi as ([[k s] e] & _ & ->). simpl. split.
      * by intros c ?%elem_of_nil.
      * intros p [= <-]. unfold root. lia.
  - intros x [[|i] Hi]%list_elem_of_lookup.
    + injection Hi as <-. apply NoDup_seq.
    + apply flat_heap_lookup_S in Hi as ([[k s] e] & _ & ->). constructor.
  - intros [|i] x Hi.
    + by injection Hi as <-.
    + apply flat_heap_lookup_S in Hi as ([[k s] e] & _ & ->). done.
  - intros i Hi. rewrite flat_heap_length in Hi. exists root. split.
    + apply flat_child_of. split; [done|lia].
    + by intros c' [? _]%flat_child_of.
  - intros i c [-> Hi]%flat_child_of. unfold root. lia.
Qed.

Lemma parsed_tree_is_well_formed_witness :
  ∃ h, _parse_structure four_lines = OK h ∧ refs_valid h ∧
       (∀ i c, child_of h i c → (c < i)%nat).
Proof.
  eexists. split; [reflexivity|].
  destruct (parsed_tree_is_well_formed four_lines _ eq_refl)
    as (Hrefs & _ & _ & _ & Hlt).
  by split.
Defined.

Lemma flat_heap_app_tail e1 e2 :
  tail (flat_heap e1) `prefix_of` tail (flat_heap (e1 ++ e2)).
Proof. simpl. rewrite map_app. by apply prefix_app_r. Qed.

Lemma max_end_app_le e1 e2 : (max_end e1 ≤ max_end (e1 ++ e2))%Z.
Proof.
  induction e2 as [|[[k s] e] e2 IH] using rev_ind.
  - by rewrite app_nil_r.
  - rewrite app_assoc, max_end_snoc. lia.
Qed.

(** X4. More output only adds to a tree: when the builder accepts
    [lines1 ++ lines2] it accepts [lines1], and the tree for the longer
    input has the elements of the shorter one unchanged at the same
    addresses, a root whose [children] list starts with the old one and
    whose [end] is not smaller. *)
Theorem more_lines_extend_the_tree lines1 lines2 h :
  _parse_structure (lines1 ++ lines2) = OK h →
  ∃ h1 r1 r,
    _parse_structure lines1 = OK h1 ∧
    h1 !! root = Some r1 ∧ h !! root = Some r ∧
    tail h1 `prefix_of` tail h ∧
    children r1 `prefix_of` children r ∧
    (end_ r1 ≤ end_ r)%Z.
Proof.
  rewrite !parse_structure_flat.
  destruct (mapM parse_line (lines1 ++ lines2)) as [elems|] eqn:Hm; [|done].
  intros [= <-].
  apply mapM_result_app_OK in Hm as (e1 & e2 & -> & -> & _).
  exists (flat_heap e1), (flat_root e1), (flat_root (e1 ++ e2)).
  split; [done|]. split; [done|]. split; [done|].
  split; [apply flat_heap_app_tail|]. split.
  - simpl. rewrite length_app, seq_app. by apply prefix_app_r.
  - apply max_end_app_le.
Qed.

Lemma more_lines_extend_the_tree_witness :
  ∃ h1 r1 r,
    _parse_structure (take 2 four_lines) = OK h1 ∧
    h1 !! root = Some r1 ∧
    (flat_heap [("class", 0, 100); ("function", 10, 20);
                ("function", 30, 40); ("class", 110, 120)]%Z) !! root = Some r ∧
    tail h1 `prefix_of`
      tail (flat_heap [("class", 0, 100); ("function", 10, 20);
                       ("function", 30, 40); ("class", 110, 120)]%Z) ∧
    children r1 `prefix_of` children r ∧
    (end_ r1 ≤ end_ r)%Z.
Proof.
  apply (more_lines_extend_the_tree (take 2 four_lines) (drop 2 four_lines)).
  reflexivity.
Defined.

End builder_extras.

(** ** The weight of a parsed file *)

Section weight_extras.

Import LangSemantics.

Lemma deref_all_after (pre l : heap) :
  deref (pre ++ l) (seq (length pre) (length l)) = l.
Proof.
  revert pre. induction l as [|x l IH]; intros pre; [done|].
  unfold deref in *. cbn [length seq omap list_omap].
  rewrite lookup_app_r, Nat.sub_diag by done. cbn [lookup list_lookup].
  f_equal. specialize (IH (pre ++ [x])).
  rewrite <- app_assoc, length_app, Nat.add_1_r in IH. exact IH.
Qed.

Lemma deref_flat_children elems :
  deref (flat_heap elems) (children (flat_heap elems !!! root))
  = map flat_element elems.
Proof.
  unfold flat_heap, root. cbn [lookup_total list_lookup_total children flat_root].
  rewrite <- (length_map flat_element elems).
  apply (deref_all_after [flat_root elems]).
Qed.

Lemma count_flat k elems :
  Z.of_nat (length (filter (λ x, kind x = k) (map flat_element elems)))
  = kind_count k elems.
Proof.
  unfold kind_count. f_equal.
  induction elems as [|[[k' s] e] elems IH]; [done|].
  cbn [map]. rewrite !filter_cons. cbn [flat_element kind fst].
  destruct (decide (k' = k)); simpl; by rewrite IH.
Qed.

(** The weight of the root of a flat heap, from the greatest [end] and the
    numbers of elements of each kind. *)
Lemma flat_root_weight elems m :
  Scorer.compute_weight (flat_heap elems) root m
  = weight_of_counts m (max_end elems) (kind_count "class" elems)
      (kind_count "function" elems)
      (kind_count "field" elems + kind_count "property" elems).
Proof.
  rewrite compute_weight_score.
  unfold ScoreSpec.score, ScoreSpec.terms, weight_of_counts.
  unfold ScoreSpec.class_count, ScoreSpec.function_count,
    ScoreSpec.property_field_count, ScoreSpec.count_kind.
  rewrite deref_flat_children, !count_flat. reflexivity.
Qed.

Lemma max_end_cases elems :
  max_end elems = 0%Z ∨ ∃ x, x ∈ elems ∧ x.2 = max_end elems.
Proof.
  induction elems as [|[[k s] e] elems IH] using rev_ind; [by left|].
  rewrite max_end_snoc.
  destruct (Z.max_spec (max_end elems) e) as [[_ ->]|[_ ->]].
  - right. exists (k, s, e). split; [|done]. apply elem_of_app. right. by left.
  - destruct IH as [?|(x & Hx & Hmax)]; [by left|].
    right. exists x. split; [|done]. apply elem_of_app. by left.
Qed.

Lemma max_end_le_of_subset e1 e2 :
  (∀ x, x ∈ e1 → x ∈ e2) → (max_end e1 ≤ max_end e2)%Z.
Proof.
  intros Hsub. destruct (max_end_cases e1) as [->|([[k s] e] & Hx & <-)].
  - apply max_end_ge_0.
  - eapply max_end_upper, Hsub, Hx.
Qed.

Lemma max_end_Permutation e1 e2 : e1 ≡ₚ e2 → max_end e1 = max_end e2.
Proof.
  intros Hp. apply Z.le_antisymm; apply max_end_le_of_subset; intros x Hx.
  - by rewrite <- Hp.
  - by rewrite Hp.
Qed.

Lemma kind_count_Permutation k e1 e2 :
  e1 ≡ₚ e2 → kind_count k e1 = kind_count k e2.
Proof. intros Hp. unfold kind_count. by rewrite Hp. Qed.

(** What [parse_line] reads from a line, or a default for a line it
    rejects. *)
Lemma mapM_parse_line_map lines elems :
  mapM parse_line lines = OK elems →
  elems = map (λ line, match parse_line line with
                       | OK x => x
                       | Err _ => ("", 0%Z, 0%Z)
                       end) lines.
Proof.
  intros Hall%mapM_result_Forall2.
  induction Hall as [|line x lines elems Hx _ IH]; [done|].
  cbn [map]. by rewrite Hx, IH.
Qed.

Lemma mapM_parse_line_Permutation lines lines' elems :
  lines ≡ₚ lines' → mapM parse_line lines = OK elems →
  ∃ elems', mapM parse_line lines' = OK elems' ∧ elems ≡ₚ elems'.
Proof.
  intros Hp Hm. pose proof (mapM_parse_line_map _ _ Hm) as ->.
  eexists. split; [|by apply Permutation_map].
  apply mapM_result_Forall2, Forall2_fmap_r, Forall_Forall2_diag.
  apply mapM_result_Forall2, Forall2_fmap_r, Forall2_same_length_lookup in Hm
    as [_ Hm].
  apply Forall_forall. intros line Hin. rewrite <- Hp in Hin.
  apply list_elem_of_lookup in Hin as [i Hi].
  exact (Hm i line line Hi Hi).
Qed.

(** X5. The weight of the root of a parsed file is fixed by four numbers:
    the greatest [end] of the output and the numbers of lines of kind
    class, of kind function, and of kind field or property. Every line
    counts at the root, wherever its range lies. *)
Theorem root_weight_from_line_counts lines h m :
  _parse_structure lines = OK h →
  ∃ elems,
    Forall2 (λ line x, parse_line line = OK x) lines elems ∧
    Scorer.compute_weight h root m
    = weight_of_counts m (max_end elems) (kind_count "class" elems)
        (kind_count "function" elems)
        (kind_count "field" elems + kind_count "property" elems).
Proof.
  intros (elems & -> & Hall)%parse_structure_elements.
  exists elems. split; [done|]. apply flat_root_weight.
Qed.

Lemma root_weight_from_line_counts_witness :
  ∃ h, _parse_structure four_lines = OK h ∧
       Scorer.compute_weight h root example_model
       = weight_of_counts example_model 120 2 2 0.
Proof.
  eexists. split; [reflexivity|].
  destruct (root_weight_from_line_counts four_lines _ example_model eq_refl)
    as (elems & Hall & ->).
  apply mapM_result_Forall2 in Hall. vm_compute in Hall.
  by injection Hall as <-.
Defined.

(** X6. The weight of the root does not depend on the order in which the
    analyzer prints its lines: any rearrangement of an accepted output is
    accepted and gives a root of the same weight in every model. *)
Theorem root_weight_ignores_line_order lines lines' h :
  lines ≡ₚ lines' →
  _parse_structure lines = OK h →
  ∃ h', _parse_structure lines' = OK h' ∧
        ∀ m, Scorer.compute_weight h' root m = Scorer.compute_weight h root m.
Proof.
  intros Hp. rewrite !parse_structure_flat.
  destruct (mapM parse_line lines) as [elems|] eqn:Hm; [|done].
  intros [= <-].
  destruct (mapM_parse_line_Permutation _ _ _ Hp Hm) as (elems' & -> & He).
  exists (flat_heap elems'). split; [done|]. intros m.
  rewrite !flat_root_weight.
  by rewrite (max_end_Permutation _ _ He),
    !(kind_count_Permutation _ _ _ He).
Qed.

Lemma root_weight_ignores_line_order_witness :
  ∃ h h',
    _parse_structure four_lines = OK h ∧
    _parse_structure (reverse four_lines) = OK h' ∧
    ∀ m, Scorer.compute_weight h' root m = Scorer.compute_weight h root m.
Proof.
  destruct (root_weight_ignores_line_order four_lines (reverse four_lines) _
              (symmetry (reverse_Permutation _)) eq_refl) as (h' & Hh' & Hw).
  eexists _, h'. split; [reflexivity|]. split; [exact Hh'|exact Hw].
Defined.

(** X7. A line of a kind the scorer does not count (a comment, say) leaves
    the weight of the root as it is, unless its [end] exceeds every [end]
    seen before: the scorer reads only classes, functions, fields and
    properties. *)
Theorem uncounted_line_keeps_root_weight lines line k s e h h' m :
  _parse_structure lines = OK h →
  _parse_structure (lines ++ [line]) = OK h' →
  parse_line line = OK (k, s, e) →
  counted_kind k = false →
  (e ≤ end_ (h !!! root))%Z →
  Scorer.compute_weight h' root m = Scorer.compute_weight h root m.
Proof.
  rewrite !parse_structure_flat.
  destruct (mapM parse_line lines) as [elems|] eqn:Hm; [|done].
  intros [= <-].
  destruct (mapM parse_line (lines ++ [line])) as [elems'|] eqn:Hm'; [|done].
  intros [= <-] Hline Hk He.
  apply mapM_result_app_OK in Hm' as (e1 & e2 & -> & H1 & H2).
  rewrite Hm in H1. injection H1 as <-.
  simpl in H2. rewrite Hline in H2. injection H2 as <-.
  rewrite !flat_root_weight, max_end_snoc.
  unfold flat_heap, root in He. cbn in He.
  rewrite Z.max_l by done.
  unfold counted_kind in Hk.
  apply orb_false_iff in Hk as [Hk Hk4].
  apply orb_false_iff in Hk as [Hk Hk3].
  apply orb_false_iff in Hk as [Hk1 Hk2].
  apply bool_decide_eq_false in Hk1, Hk2, Hk3, Hk4.
  unfold kind_count. rewrite !filter_app, !filter_cons, !filter_nil.
  cbn [fst]. rewrite !decide_False by done.
  by rewrite !app_nil_r.
Qed.

Lemma uncounted_line_keeps_root_weight_witness :
  ∃ h h',
    _parse_structure four_lines = OK h ∧
    _parse_structure (four_lines ++ ["comment - [5-8]"]) = OK h' ∧
    Scorer.compute_weight h' root example_model
    = Scorer.compute_weight h root example_model.
Proof.
  eexists _, _. split; [reflexivity|]. split; [reflexivity|].
  apply (uncounted_line_keeps_root_weight four_lines "comment - [5-8]"
           "comment" 5 8); try reflexivity.
  vm_compute. discriminate.
Defined.

End weight_extras.

(** ** The invoker and the registry *)

Section invoker_extras.

Variable env : Env.

(** X8. When [analyze] returns, the analyzer has been run exactly once,
    with the argument list and in the directory of the analyzer, and has
    ended with status 0; what is returned is the weight model of the file
    with the tree built from the decoded output of that run; the cache and
    the printed lines are as before. *)
Theorem analyze_starts_one_process self file w r :
  (analyze env self file w).1 = OK r →
  let process :=
    run_process env (analyzer_args self file) (lang_dir self) in
  returncode process = 0%Z ∧
  (∃ output,
     decode_utf8 env (stdout process) = OK output ∧
     LangSemantics._parse_structure (PyStr.splitlines_keepends output)
     = OK r.2) ∧
  SemanticWeightModel_parse env file = OK r.1 ∧
  (analyze env self file w).2
  = {| SEMANTIC_ANALYZERS := SEMANTIC_ANALYZERS w;
       started := started w ++ [(analyzer_args self file, lang_dir self)];
       printed := printed w |}.
Proof.
  unfold analyze, subprocess_run_check, note_started, raise, lift.
  unfold mbind, M_bind, mret, M_ret. cbv zeta.
  destruct (Z.eqb_spec
              (returncode
                 (run_process env (analyzer_args self file) (lang_dir self)))
              0) as [Hrc|_]; [|done].
  destruct (decode_utf8 env _) as [output|]; [|done].
  destruct (LangSemantics._parse_structure _) as [structure|] eqn:Hs; [|done].
  destruct (SemanticWeightModel_parse env _) as [model|]; [|done].
  cbn [fst snd]. intros [= <-]. split; [done|]. split; [|done].
  by exists output.
Qed.

(** X9. An analyzer that ends with status 0 and prints nothing gives the
    same tree as the fallback: a lone root with no children and [end] 0. *)
Theorem silent_analyzer_gives_lone_root self file w m :
  returncode (run_process env (analyzer_args self file) (lang_dir self)) = 0%Z →
  decode_utf8 env
    (stdout (run_process env (analyzer_args self file) (lang_dir self)))
  = OK "" →
  SemanticWeightModel_parse env file = OK m →
  (analyze env self file w).1 = OK (m, fallback_pair.2).
Proof.
  intros Hrc Hout Hm.
  unfold analyze, subprocess_run_check, note_started, raise, lift.
  unfold mbind, M_bind, mret, M_ret. cbv zeta.
  rewrite Hrc. cbn [Z.eqb]. cbn [stdout]. rewrite Hout. cbn. by rewrite Hm.
Qed.

End invoker_extras.

Lemma analyze_starts_one_process_witness :
  ∃ r,
    (analyze sample_env cs_analyzer good_file empty_world).1 = OK r ∧
    returncode
      (run_process sample_env (analyzer_args cs_analyzer good_file)
         (lang_dir cs_analyzer)) = 0%Z ∧
    started (analyze sample_env cs_analyzer good_file empty_world).2
    = [(analyzer_args cs_analyzer good_file, lang_dir cs_analyzer)].
Proof.
  destruct (analyze sample_env cs_analyzer good_file empty_world).1
    as [r|e] eqn:Hr.
  - exists r. split; [done|].
    destruct (analyze_starts_one_process sample_env cs_analyzer good_file
                empty_world r Hr) as (Hrc & _ & _ & Hw).
    split; [exact Hrc|]. by rewrite Hw.
  - vm_compute in Hr. discriminate.
Defined.

Lemma silent_analyzer_gives_lone_root_witness :
  (analyze silent_env cs_analyzer good_file empty_world).1
  = OK (example_model, [LangElement.__init__ "root" None []]).
Proof.
  apply (silent_analyzer_gives_lone_root silent_env cs_analyzer good_file
           empty_world example_model); reflexivity.
Defined.

Section registry_extras.

Variable env : Env.

(** The lookup reads a file only through its extension. *)
Lemma load_same_extension file file' :
  extension_of file' = extension_of file →
  load_semantic_parser env file' = load_semantic_parser env file.
Proof. intros He. by rewrite !load_extension, He. Qed.

(** X10. A lookup changes the world in one case only: when it finds the
    directory of an extension that was not cached, it adds the analyzer
    under that extension. Entries already cached are never replaced; a
    lookup that finds nothing or that raises caches nothing; no lookup
    starts a process or prints. *)
Theorem lookup_only_adds_a_new_analyzer file w :
  let extension := extension_of file in
  let r := (load_semantic_parser env file w).1 in
  let w' := (load_semantic_parser env file w).2 in
  (w' = w ∧ ∀ s, r = OK (Some s) → SEMANTIC_ANALYZERS w !! extension = Some s)
  ∨ (∃ s, r = OK (Some s) ∧
          SEMANTIC_ANALYZERS w !! extension = None ∧
          path_exists env (Path.joinpath (LANG_SEMANTICS_PATH env) extension)
          = true ∧
          read_text env
            (Path.joinpath (Path.joinpath (LANG_SEMANTICS_PATH env) extension)
               "target") = OK (tool s) ∧
          w' = {| SEMANTIC_ANALYZERS := <[extension := s]> (SEMANTIC_ANALYZERS w);
                  started := started w; printed := printed w |}).
Proof.
  cbv zeta. rewrite load_extension.
  destruct (PyStr.is_empty (extension_of file)); [by left|].
  unfold mbind, M_bind, get_analyzers.
  destruct (SEMANTIC_ANALYZERS w !! extension_of file) as [s'|] eqn:Hc.
  { left. split; [done|]. by intros s [= <-]. }
  cbv zeta. destruct (path_exists env _) eqn:Hex; cbn [negb]; [|by left].
  unfold lift, set_analyzer, mret, M_ret.
  destruct (read_text env _) as [exe|] eqn:Hread; [|by left].
  right. by eexists.
Qed.

Lemma load_world file w r w' :
  load_semantic_parser env file w = (r, w') →
  w' = w ∨ ∃ s, r = OK (Some s).
Proof.
  rewrite load_extension.
  destruct (PyStr.is_empty (extension_of file)); [intros [= _ <-]; by left|].
  unfold mbind, M_bind, get_analyzers.
  destruct (SEMANTIC_ANALYZERS w !! extension_of file);
    [intros [= _ <-]; by left|].
  cbv zeta. destruct (negb _); [intros [= _ <-]; by left|].
  unfold lift, set_analyzer, mret, M_ret.
  destruct (read_text env _); intros [= <- <-]; [right; by eexists|by left].
Qed.

(** X11. Lookups repeat themselves: right after a lookup, a lookup for any
    file with the same extension gives the same answer and changes nothing
    more. In particular all files of one extension share one analyzer. *)
Theorem lookup_twice_is_lookup_once file file' w r w' :
  load_semantic_parser env file w = (r, w') →
  extension_of file' = extension_of file →
  load_semantic_parser env file' w' = (r, w').
Proof.
  intros Hl He. rewrite (load_same_extension _ _ He).
  destruct (load_world _ _ _ _ Hl) as [->|[s ->]]; [done|].
  apply load_Some_cached in Hl as [Hc Hne]. by apply load_cached.
Qed.

End registry_extras.

Lemma lookup_twice_is_lookup_once_witness :
  ∃ w',
    load_semantic_parser sample_env good_file empty_world
    = (OK (Some cs_analyzer), w') ∧
    load_semantic_parser sample_env bad_file w' = (OK (Some cs_analyzer), w').
Proof.
  exists (load_semantic_parser sample_env good_file empty_world).2.
  assert (load_semantic_parser sample_env good_file empty_world
          = (OK (Some cs_analyzer),
             (load_semantic_parser sample_env good_file empty_world).2)) as H
    by (vm_compute; reflexivity).
  split; [exact H|].
  apply (lookup_twice_is_lookup_once sample_env good_file bad_file empty_world
           _ _ H).
  reflexivity.
Defined.

(** X12. A cached extension is served from the cache alone: the answer is
    the cached analyzer and the world stays as it is, whatever the file
    system holds by then. *)
Theorem cached_lookup_ignores_file_system env env' file w s :
  SEMANTIC_ANALYZERS w !! extension_of file = Some s →
  extension_of file ≠ "" →
  load_semantic_parser env file w = (OK (Some s), w) ∧
  load_semantic_parser env' file w = load_semantic_parser env file w.
Proof.
  intros Hc Hne. by rewrite !(load_cached _ file w s Hc Hne).
Qed.

Lemma cached_lookup_ignores_file_system_witness :
  ∃ w,
    load_semantic_parser sample_env good_file w = (OK (Some cs_analyzer), w) ∧
    load_semantic_parser silent_env good_file w
    = load_semantic_parser sample_env good_file w.
Proof.
  exists {| SEMANTIC_ANALYZERS := {[ "cs" := cs_analyzer ]};
            started := []; printed := [] |}.
  apply cached_lookup_ignores_file_system; [reflexivity|discriminate].
Defined.

(** ** The batch driver *)

Section batch_extras.

Variable env : Env.

Lemma silent_ret {A} (a : A) : silent (mret a).
Proof. by intros p w. Qed.

Lemma silent_bind {A B} (f : M A) (g : A → M B) :
  silent f → (∀ a, silent (g a)) → silent (f ≫= g).
Proof.
  intros Hf Hg p w. unfold mbind, M_bind. rewrite Hf.
  destruct (f w) as [[a|e] w1]; [|done]. apply Hg.
Qed.

Lemma silent_load file : silent (load_semantic_parser env file).
Proof.
  intros p w. rewrite load_extension.
  destruct (PyStr.is_empty (extension_of file)); [done|].
  unfold mbind, M_bind, get_analyzers. cbn [SEMANTIC_ANALYZERS with_printed].
  destruct (SEMANTIC_ANALYZERS w !! extension_of file); [done|].
  cbv zeta. destruct (negb _); [done|].
  unfold lift, set_analyzer, mret, M_ret. by destruct (read_text env _).
Qed.

Lemma silent_analyze s file : silent (analyze env s file).
Proof.
  intros p w.
  unfold analyze, subprocess_run_check, note_started, raise, lift.
  unfold mbind, M_bind, mret, M_ret. cbv zeta.
  destruct (returncode _ =? 0)%Z; [|done].
  destruct (decode_utf8 env _); [|done].
  destruct (LangSemantics._parse_structure _); [|done].
  by destruct (SemanticWeightModel_parse env _).
Qed.

Lemma silent_grouped_body file : silent (grouped_body env file).
Proof.
  unfold grouped_body, has_semantic_parser, compute_semantic_weight.
  apply silent_bind; [apply silent_bind; [apply silent_load|]|].
  - intros o. apply silent_ret.
  - intros [|]; [|apply silent_ret].
    apply silent_bind; [|intros; apply silent_ret].
    apply silent_bind; [apply silent_load|].
    intros [s|]; [apply silent_analyze|done].
Qed.

Lemma silent_mapM {A B} (f : A → M B) l :
  (∀ x, silent (f x)) → silent (mapM f l).
Proof.
  intros Hf. induction l as [|x l IH]; [apply silent_ret|].
  cbn [mapM]. apply silent_bind; [apply Hf|]. intros y.
  apply silent_bind; [apply IH|]. intros k. apply silent_ret.
Qed.

Lemma silent_grouped group :
  silent (compute_semantic_weight_grouped env group).
Proof. apply silent_mapM, silent_grouped_body. Qed.

Lemma silent_printed {A} (f : M A) w : silent f → printed (f w).2 = printed w.
Proof.
  intros Hf. pose proof (Hf (printed w) w) as H.
  assert (with_printed (printed w) w = w) as Hw by by destruct w.
  rewrite Hw in H. destruct (f w) as [r w1]. by injection H as ->.
Qed.

Lemma with_printed_twice p q w : with_printed p (with_printed q w) = with_printed p w.
Proof. done. Qed.

Lemma result_loop_cons verbose total c g groups w :
  result_loop env verbose total c (g :: groups) w
  = match compute_semantic_weight_grouped env g w with
    | (Err e, w1) => (Err e, w1)
    | (OK ps, w1) =>
        match result_loop env verbose total (if verbose then S c else c) groups
                (if verbose
                 then with_printed (printed w1 ++ [ProgressLine c total]) w1
                 else w1) with
        | (OK res, w3) => (OK (ps :: res), w3)
        | (Err e, w3) => (Err e, w3)
        end
    end.
Proof.
  cbn [result_loop]. unfold mbind at 1. unfold M_bind at 1.
  destruct (compute_semantic_weight_grouped env g w) as [[ps|e] w1]; [|done].
  destruct verbose; unfold mbind, M_bind, mret, M_ret, print; cbn;
    by destruct (result_loop env _ total _ groups _) as [[?|?] ?].
Qed.

Lemma result_unfold groups verbose w :
  compute_semantic_weight_result env groups verbose w
  = match result_loop env verbose (length groups) 1 groups w with
    | (OK ret, w1) =>
        (OK ret,
         if verbose then with_printed (printed w1 ++ [DoneLine]) w1 else w1)
    | (Err e, w1) => (Err e, w1)
    end.
Proof.
  unfold compute_semantic_weight_result. cbv zeta. unfold mbind, M_bind.
  destruct (result_loop env verbose (length groups) 1 groups w)
    as [[ret|e] w1]; [|done].
  by destruct verbose.
Qed.

(** The loop with and without progress lines, from worlds that differ in
    the printed lines only. *)
Lemma result_loop_verbose total total' groups : ∀ c c' w p,
  (result_loop env true total c groups (with_printed p w)).1
  = (result_loop env false total' c' groups w).1
  ∧ with_printed [] (result_loop env true total c groups (with_printed p w)).2
    = with_printed [] (result_loop env false total' c' groups w).2.
Proof.
  induction groups as [|g groups IH]; intros c c' w p; [done|].
  rewrite !result_loop_cons, (silent_grouped g p w).
  destruct (compute_semantic_weight_grouped env g w) as [[ps|e] w1];
    [|done].
  cbn [fst snd].
  change (with_printed (printed (with_printed p w1) ++ [ProgressLine c total])
            (with_printed p w1))
    with (with_printed (p ++ [ProgressLine c total]) w1).
  destruct (IH (S c) c' w1 (p ++ [ProgressLine c total])) as [Hr Hw].
  destruct (result_loop env true total (S c) groups
              (with_printed (p ++ [ProgressLine c total]) w1)) as [r1 w2].
  destruct (result_loop env false total' c' groups w1) as [r2 w3].
  cbn [fst snd] in *. subst r2. by destruct r1.
Qed.

Lemma result_loop_quiet total groups : ∀ c w,
  printed (result_loop env false total c groups w).2 = printed w.
Proof.
  induction groups as [|g groups IH]; intros c w; [done|].
  rewrite result_loop_cons.
  pose proof (silent_printed _ w (silent_grouped g)) as Hg.
  destruct (compute_semantic_weight_grouped env g w) as [[ps|e] w1]; [|done].
  cbn [snd] in Hg. specialize (IH c w1). rewrite Hg in IH.
  by destruct (result_loop env false total c groups w1) as [[?|?] ?].
Qed.

(** X13. A batch run without the switch [verbose] prints nothing, whatever
    its outcome; and where the run with the switch returns, the run
    without it returns the same result, with the same cache and the same
    processes started: the two differ in the printed lines only. *)
Theorem verbose_only_prints groups w :
  printed (compute_semantic_weight_result env groups false w).2 = printed w
  ∧ ∀ res,
      (compute_semantic_weight_result env groups true w).1 = OK res →
      (compute_semantic_weight_result env groups false w).1 = OK res
      ∧ with_printed [] (compute_semantic_weight_result env groups true w).2
        = with_printed [] (compute_semantic_weight_result env groups false w).2.
Proof.
  rewrite !result_unfold.
  assert (with_printed (printed w) w = w) as Hw by by destruct w.
  destruct (result_loop_verbose (length groups) (length groups) groups
              1 1 w (printed w)) as [Hr Hp].
  rewrite Hw in Hr, Hp.
  pose proof (result_loop_quiet (length groups) groups 1 w) as Hq.
  destruct (result_loop env true (length groups) 1 groups w) as [r1 w1].
  destruct (result_loop env false (length groups) 1 groups w) as [r2 w2].
  cbn [fst snd] in *. subst r2. split; [by destruct r1|].
  intros res. by destruct r1.
Qed.

Lemma result_loop_prints total groups : ∀ c w res w',
  result_loop env true total c groups w = (OK res, w') →
  printed w'
  = printed w ++ map (λ counter, ProgressLine counter total)
                     (seq c (length groups)).
Proof.
  induction groups as [|g groups IH]; intros c w res w'.
  - intros [= _ <-]. by rewrite app_nil_r.
  - rewrite result_loop_cons.
    pose proof (silent_printed _ w (silent_grouped g)) as Hg.
    destruct (compute_semantic_weight_grouped env g w) as [[ps|e] w1]; [|done].
    cbn [snd] in Hg.
    destruct (result_loop env true total (S c) groups _) as [[res'|e] w3] eqn:Hl;
      [|done].
    intros [= _ <-]. apply IH in Hl. rewrite Hl. cbn [printed with_printed].
    rewrite Hg. cbn [length seq map]. by rewrite <- app_assoc.
Qed.

(** X14. A verbose run that returns has printed one progress line per
    group, counting from 1 to the number of groups, and the closing line
    after them, in this order and nothing else. *)
Theorem verbose_run_prints_progress groups w res w' :
  compute_semantic_weight_result env groups true w = (OK res, w') →
  printed w' = printed w ++ progress_lines (length groups) ++ [DoneLine].
Proof.
  rewrite result_unfold.
  destruct (result_loop env true (length groups) 1 groups w)
    as [[ret|e] w1] eqn:Hl; [|done].
  intros [= _ <-]. apply result_loop_prints in Hl.
  cbn [printed with_printed]. rewrite Hl. by rewrite <- app_assoc.
Qed.

(** X15. A batch of files none of which has an analyzer returns the
    fallback pair for every file, group by group, and leaves no trace: no
    analyzer is cached, no process is started and, without [verbose],
    nothing is printed. *)
Theorem unsupported_batch_leaves_no_trace groups w :
  (∀ g f, g ∈ groups → f ∈ files g → no_analyzer env w f) →
  compute_semantic_weight_result env groups false w
  = (OK (map (λ g, map (λ _, fallback_pair) (files g)) groups), w).
Proof.
  intros Hno. rewrite result_unfold.
  assert (∀ c, result_loop env false (length groups) c groups w
               = (OK (map (λ g, map (λ _, fallback_pair) (files g)) groups), w))
    as ->; [|done].
  generalize (length groups). intros total c.
  induction groups as [|g groups IH]; [done|].
  rewrite result_loop_cons.
  assert (compute_semantic_weight_grouped env g w
          = (OK (map (λ _, fallback_pair) (files g)), w)) as ->.
  { unfold compute_semantic_weight_grouped.
    assert (∀ f, f ∈ files g → no_analyzer env w f) as Hg
      by (intros f Hf; eapply Hno; [by left|done]).
    induction (files g) as [|f l IHl]; [done|].
    cbn [mapM map]. unfold mbind at 1. unfold M_bind at 1.
    rewrite grouped_body_no_analyzer by (apply Hg; by left).
    unfold mbind at 1. unfold M_bind at 1.
    by rewrite IHl by (intros; apply Hg; by right). }
  rewrite IH; [done|]. intros g' f Hg' Hf. eapply Hno; [by right|done].
Qed.

End batch_extras.

Lemma verbose_only_prints_witness :
  let batch := [mkFileGroup [good_file]; mkFileGroup [bin_file]] in
  ∃ res,
    (compute_semantic_weight_result sample_env batch true empty_world).1
    = OK res ∧
    (compute_semantic_weight_result sample_env batch false empty_world).1
    = OK res ∧
    with_printed []
      (compute_semantic_weight_result sample_env batch true empty_world).2
    = with_printed []
        (compute_semantic_weight_result sample_env batch false empty_world).2 ∧
    printed (compute_semantic_weight_result sample_env batch false empty_world).2
    = [].
Proof.
  intros batch.
  destruct (verbose_only_prints sample_env batch empty_world) as [Hq Hv].
  destruct (compute_semantic_weight_result sample_env batch true empty_world).1
    as [res|e] eqn:Hr.
  - exists res. destruct (Hv res eq_refl) as [Hres Hw]. by repeat split.
  - vm_compute in Hr. discriminate.
Defined.

Lemma verbose_run_prints_progress_witness :
  ∃ res w',
    compute_semantic_weight_result sample_env
      [mkFileGroup [good_file]; mkFileGroup [bin_file]] true empty_world
    = (OK res, w') ∧
    printed w' = [ProgressLine 1 2; ProgressLine 2 2; DoneLine].
Proof.
  destruct (compute_semantic_weight_result sample_env
              [mkFileGroup [good_file]; mkFileGroup [bin_file]] true
              empty_world) as [[res|e] w'] eqn:Hrun.
  - exists res, w'. split; [done|].
    apply (verbose_run_prints_progress sample_env _ empty_world res w' Hrun).
  - vm_compute in Hrun. discriminate.
Defined.

Lemma unsupported_batch_leaves_no_trace_witness :
  compute_semantic_weight_result sample_env
    [mkFileGroup [bin_file; ["LICENCE"]]; mkFileGroup []] false empty_world
  = (OK [[fallback_pair; fallback_pair]; []], empty_world).
Proof.
  apply (unsupported_batch_leaves_no_trace sample_env
           [mkFileGroup [bin_file; ["LICENCE"]]; mkFileGroup []] empty_world).
  intros g f Hg Hf.
  repeat (apply elem_of_cons in Hg as [->|Hg]);
    [|by apply elem_of_nil in Hf|by apply elem_of_nil in Hg].
  repeat (apply elem_of_cons in Hf as [->|Hf]);
    [right; split; reflexivity|by left|by apply elem_of_nil in Hf].
Defined.

(** ** Processes started by a batch run *)

Section process_extras.

Variable env : Env.

Lemma resolves_false w file :
  resolves env w file = false ↔ no_analyzer env w file.
Proof.
  unfold resolves, no_analyzer. cbv zeta.
  destruct (extension_of (Path.absolute (cwd env) file)) as [|c ext] eqn:He.
  - split; [by left|done].
  - cbn [PyStr.is_empty negb andb]. rewrite orb_false_iff.
    rewrite bool_decide_eq_false, <- eq_None_not_Some.
    split; [by right|]. by intros [?|?].
Qed.

Lemma resolves_grown w w' file :
  cache_grown env w w' → resolves env w' file = resolves env w file.
Proof.
  intros Hg. unfold resolves. cbv zeta.
  destruct (path_exists env _) eqn:Hex.
  - by rewrite !orb_true_r.
  - by rewrite (Hg _ Hex).
Qed.

Lemma load_started file w :
  started (load_semantic_parser env file w).2 = started w.
Proof.
  rewrite load_extension.
  destruct (PyStr.is_empty (extension_of file)); [done|].
  unfold mbind, M_bind, get_analyzers.
  destruct (SEMANTIC_ANALYZERS w !! extension_of file); [done|].
  cbv zeta. destruct (negb _); [done|].
  unfold lift, set_analyzer, mret, M_ret. by destruct (read_text env _).
Qed.

Lemma load_answer_resolves file w o w' :
  load_semantic_parser env (Path.absolute (cwd env) file) w = (OK o, w') →
  resolves env w file = bool_decide (o ≠ None).
Proof.
  unfold resolves. cbv zeta. rewrite load_extension.
  destruct (PyStr.is_empty _); [by intros [= <- _]|].
  unfold mbind, M_bind, get_analyzers.
  destruct (SEMANTIC_ANALYZERS w !! _) as [s|]; [by intros [= <- _]|].
  cbv zeta. destruct (path_exists env _); cbn [negb]; [|by intros [= <- _]].
  unfold lift, set_analyzer, mret, M_ret.
  destruct (read_text env _); [|done]. by intros [= <- _].
Qed.

Lemma analyze_started s file w :
  started (analyze env s file w).2
  = started w ++ [(analyzer_args s file, lang_dir s)].
Proof.
  unfold analyze, subprocess_run_check, note_started, raise, lift.
  unfold mbind, M_bind, mret, M_ret. cbv zeta.
  destruct (returncode _ =? 0)%Z; [|done].
  destruct (decode_utf8 env _); [|done].
  destruct (LangSemantics._parse_structure _); [|done].
  by destruct (SemanticWeightModel_parse env _).
Qed.

(** One file: a process is started exactly when the lookup resolves. *)
Lemma grouped_body_started file w p w' :
  grouped_body env file w = (OK p, w') →
  length (started w')
  = (length (started w) + if resolves env w file then 1 else 0)%nat.
Proof.
  intros Hb.
  destruct (grouped_body_cases env file w)
    as [(w1 & Hh & -> & Hg)|[(s & w1 & Hh & Hg)|(e & w1 & Hl & Hg)]];
    rewrite Hg in Hb; [| |done].
  - injection Hb as _ <-.
    revert Hh. unfold has_semantic_parser, mbind, M_bind, mret, M_ret.
    destruct (load_semantic_parser env _ w) as [[o|e] w2] eqn:Hl; [|done].
    intros [= Ho _]. rewrite (load_answer_resolves _ _ _ _ Hl), Ho. simpl. lia.
  - revert Hh. unfold has_semantic_parser, mbind, M_bind, mret, M_ret.
    pose proof (load_started (Path.absolute (cwd env) file) w) as Hs.
    destruct (load_semantic_parser env _ w) as [[o|e] w2] eqn:Hl; [|done].
    intros [= Ho <-]. rewrite (load_answer_resolves _ _ _ _ Hl), Ho.
    pose proof (analyze_started s (Path.absolute (cwd env) file) w2) as Ha.
    rewrite Hb in Ha. cbn [snd] in *. rewrite Ha, length_app, Hs. simpl. lia.
Qed.

Lemma grouped_started w0 file_list : ∀ w ps w',
  cache_grown env w0 w →
  mapM (grouped_body env) file_list w = (OK ps, w') →
  cache_grown env w0 w' ∧
  length (started w')
  = (length (started w)
     + length (filter (λ f, resolves env w0 f = true) file_list))%nat.
Proof.
  induction file_list as [|f file_list IH]; intros w ps w' Hg.
  - intros [= _ <-]. split; [done|]. simpl. lia.
  - cbn [mapM]. unfold mbind at 1. unfold M_bind at 1.
    destruct (grouped_body env f w) as [[p|e] w1] eqn:Hb; [|done].
    pose proof (cache_grown_trans _ _ _ _ Hg (grouped_body_grown _ _ _ _ _ Hb))
      as Hg1.
    unfold mbind at 1. unfold M_bind at 1.
    destruct (mapM (grouped_body env) file_list w1) as [[ps'|e] w2] eqn:Hm;
      [|done].
    intros [= _ <-]. destruct (IH _ _ _ Hg1 Hm) as [Hg2 Hlen].
    split; [done|]. rewrite Hlen, (grouped_body_started _ _ _ _ Hb).
    rewrite filter_cons, (resolves_grown _ _ f Hg).
    destruct (resolves env w0 f); simpl; lia.
Qed.

Lemma result_loop_started w0 verbose total groups : ∀ c w res w',
  cache_grown env w0 w →
  result_loop env verbose total c groups w = (OK res, w') →
  length (started w')
  = (length (started w)
     + length (filter (λ f, resolves env w0 f = true) (all_files groups)))%nat.
Proof.
  induction groups as [|g groups IH]; intros c w res w' Hg.
  - intros [= _ <-]. simpl. lia.
  - rewrite result_loop_cons. unfold compute_semantic_weight_grouped.
    destruct (mapM (grouped_body env) (files g) w) as [[ps|e] w1] eqn:Hm;
      [|done].
    destruct (grouped_started _ _ _ _ _ Hg Hm) as [Hg1 Hlen].
    set (w2 := if verbose then _ else w1).
    assert (started w2 = started w1 ∧ cache_grown env w0 w2) as [Hs Hg2].
    { subst w2. by destruct verbose. }
    destruct (result_loop env verbose total _ groups w2) as [[res'|e] w3] eqn:Hl;
      [|done].
    intros [= _ <-]. apply IH in Hl; [|done].
    rewrite Hl, Hs, Hlen. unfold all_files. cbn [map concat].
    rewrite filter_app, length_app. lia.
Qed.

(** X16. A batch run that returns has started exactly one analyzer process
    for each file whose lookup resolves, and none for the files that get
    the fallback pair. *)
Theorem one_process_per_supported_file groups verbose w res w' :
  compute_semantic_weight_result env groups verbose w = (OK res, w') →
  length (started w')
  = (length (started w)
     + length (filter (λ f, resolves env w f = true) (all_files groups)))%nat.
Proof.
  rewrite result_unfold.
  destruct (result_loop env verbose (length groups) 1 groups w)
    as [[ret|e] w1] eqn:Hl; [|done].
  intros [= _ <-].
  apply (result_loop_started w) in Hl; [|apply cache_grown_refl].
  rewrite <- Hl. by destruct verbose.
Qed.

End process_extras.

Lemma one_process_per_supported_file_witness :
  ∃ res w',
    compute_semantic_weight_result sample_env
      [mkFileGroup [good_file; bin_file]; mkFileGroup [good_file]] false
      empty_world = (OK res, w') ∧
    length (started w') = 2%nat.
Proof.
  destruct (compute_semantic_weight_result sample_env
              [mkFileGroup [good_file; bin_file]; mkFileGroup [good_file]]
              false empty_world) as [[res|e] w'] eqn:Hrun.
  - exists res, w'. split; [done|].
    apply (one_process_per_supported_file sample_env _ false empty_world
             res w' Hrun).
  - vm_compute in Hrun. discriminate.
Defined.

(** ** Remote repositories *)

Section hooks_extras.

Import RepositoryHooks.

Lemma length_append_s (a b : string) :
  String.length (a ++ b) = (String.length a + String.length b)%nat.
Proof. induction a as [|x a IH]; [done|]. push_append. simpl. by rewrite IH. Qed.

Lemma substring_all (a : string) : String.substring 0 (String.length a) a = a.
Proof. induction a as [|x a IH]; [done|]. simpl. by rewrite IH. Qed.

Lemma substring_zero (a : string) : String.substring 0 0 a = "".
Proof. by destruct a. Qed.

Lemma substring_front (a b : string) :
  String.substring 0 (String.length a) (a ++ b) = a.
Proof.
  induction a as [|x a IH]; [apply substring_zero|].
  push_append. simpl. by rewrite IH.
Qed.

Lemma substring_back (a b : string) :
  String.substring (String.length a) (String.length b) (a ++ b) = b.
Proof.
  induction a as [|x a IH]; [apply substring_all|]. push_append. by simpl.
Qed.

Lemma endswith_append (a p : string) : endswith p (a ++ p) = true.
Proof.
  unfold endswith. rewrite length_append_s.
  replace (String.length a + String.length p - String.length p)%nat
    with (String.length a) by lia.
  rewrite substring_back, String.eqb_refl, andb_true_r. apply Nat.leb_le. lia.
Qed.

Lemma drop_last_append (a p : string) :
  drop_last_chars (String.length p) (a ++ p) = a.
Proof.
  unfold drop_last_chars. rewrite length_append_s.
  replace (String.length a + String.length p - String.length p)%nat
    with (String.length a) by lia.
  apply substring_front.
Qed.

Lemma startswith_slash_append (a : string) :
  startswith "/" a = false → startswith "/" (a ++ ".git") = false.
Proof. destruct a as [|x a]; [done|]. by push_append. Qed.

(** X17. The four spellings of a project path, with or without a leading
    slash and with or without a trailing [.git], are normalized to the same
    text, the path without either. *)
Theorem project_path_spellings_agree p :
  startswith "/" p = false → endswith ".git" p = false →
  normalize_project_path p = p ∧
  normalize_project_path ("/" ++ p) = p ∧
  normalize_project_path (p ++ ".git") = p ∧
  normalize_project_path ("/" ++ p ++ ".git") = p.
Proof.
  intros Hs He. unfold normalize_project_path.
  split; [by rewrite Hs, He|]. split; [|split].
  - push_append. cbn. by rewrite He.
  - rewrite startswith_slash_append, endswith_append by done.
    apply (drop_last_append p ".git").
  - push_append. cbn [startswith Ascii.eqb Bool.eqb andb drop_chars].
    rewrite endswith_append. apply (drop_last_append p ".git").
Qed.

Lemma project_path_spellings_agree_witness :
  normalize_project_path "group/project" = "group/project" ∧
  normalize_project_path "/group/project" = "group/project" ∧
  normalize_project_path "group/project.git" = "group/project" ∧
  normalize_project_path "/group/project.git" = "group/project".
Proof.
  apply (project_path_spellings_agree "group/project"); reflexivity.
Defined.


(** X18. Every project read from the projects file is the stripped text of
    one of its lines, is not empty, and has no white space left at either
    end; the projects come in the order of their lines; and a line is left
    out exactly when it is blank or starts with the comment sign. *)
Theorem project_lines_are_stripped_lines lines :
  project_lines lines
  = map PyStr.strip
      (filter (λ line, PyStr.is_empty (PyStr.strip line) = false ∧
                       startswith "#" line = false) lines)
  ∧ ∀ p, p ∈ project_lines lines → p ≠ "" ∧ PyStr.strip p = p.
Proof.
  assert (project_lines lines
          = map PyStr.strip
              (filter (λ line, PyStr.is_empty (PyStr.strip line) = false ∧
                               startswith "#" line = false) lines)) as Heq.
  { induction lines as [|line lines IH]; [done|].
    cbn [project_lines]. rewrite filter_cons.
    destruct (decide (PyStr.is_empty (PyStr.strip line) = false ∧
                      startswith "#" line = false)) as [[He Hc]|Hn].
    - rewrite He, Hc. cbn [orb map]. by rewrite IH.
    - destruct (PyStr.is_empty (PyStr.strip line)); [done|].
      destruct (startswith "#" line); [done|]. by destruct Hn. }
  split; [done|]. rewrite Heq. intros p Hp.
  apply list_elem_of_fmap in Hp as (line & -> & Hin).
  apply list_elem_of_filter in Hin as [[He _] _]. split.
  - intros Heq'. by rewrite Heq' in He.
  - apply strip_idem.
Qed.

(** X19. The comment sign counts only in the first column: an indented line
    is kept as a project unless it is blank, even when the first thing on
    it is the comment sign. *)
Theorem indented_comment_is_a_project c rest :
  PyStr.is_space c = true →
  project_lines [String c rest]
  = if PyStr.is_empty (PyStr.strip rest) then [] else [PyStr.strip rest].
Proof.
  intros Hc. cbn [project_lines].
  assert (PyStr.strip (String c rest) = PyStr.strip rest) as ->.
  { unfold PyStr.strip, PyStr.lstrip. simpl. by rewrite Hc. }
  assert (startswith "#" (String c rest) = false) as ->.
  { cbn [startswith]. destruct (Ascii.eqb_spec "#" c) as [<-|]; [done|].
    by rewrite andb_false_l. }
  rewrite orb_false_r. by destruct (PyStr.is_empty (PyStr.strip rest)).
Qed.

Lemma indented_comment_is_a_project_witness :
  project_lines ["  # not a comment"] = ["# not a comment"].
Proof.
  apply (indented_comment_is_a_project " " " # not a comment"). reflexivity.
Defined.

Section with_remote.

Variable remote : Remote.

(** X20. The two kinds of repository keep different paths. A GitLab
    repository keeps the path of the address as it was given and only asks
    the server for the normalized one; a GitHub repository keeps the
    normalized path, and its host is always [https://github.com]. A host
    that names both services is taken for GitLab. *)
Theorem repository_path_by_kind uri gitlab_token github_token evs repo :
  parse_project remote uri gitlab_token github_token = (evs, inr repo) →
  ∃ h raw,
    host uri = Some h ∧ path uri = Some raw ∧
    is_gitlab repo = contains_text "gitlab" h ∧
    if is_gitlab repo
    then repo_path repo = raw ∧ access_token repo = gitlab_token ∧
         last evs = Some (GitLabGet (repo_host repo) (normalize_project_path raw))
    else repo_path repo = normalize_project_path raw ∧
         access_token repo = github_token ∧
         repo_host repo = "https://github.com" ∧
         contains_text "github" h = true ∧
         last evs = Some (GithubGet (normalize_project_path raw)).
Proof.
  unfold parse_project.
  destruct (host uri) as [h|]; [|done].
  destruct (contains_text "gitlab" h) eqn:Hgl.
  - destruct (scheme uri) as [sch|]; [|done]. unfold GitLabRepository.
    destruct (gitlab_auth remote _ _); [done|].
    destruct (path uri) as [raw|]; [|done]. cbv zeta.
    destruct (gitlab_project_name remote _ _ _); [done|].
    intros [= <- <-]. by exists h, raw.
  - destruct (contains_text "github" h) eqn:Hgh; [|done].
    unfold GithubRepository.
    destruct (path uri) as [raw|]; [|done]. cbv zeta.
    destruct (github_connect remote _); [done|].
    destruct (github_repo_name remote _ _); [done|].
    intros [= <- <-]. by exists h, raw.
Qed.

(** X21. [parse_projects] is all or nothing and keeps the order: when it
    returns, there is one repository for each project line of the file, in
    the order of the lines, each the one [parse_project] builds for that
    line; a blank line or a comment line costs no call. A missing file
    fails before anything else. *)
Theorem parse_projects_one_repository_per_line parse file_lines
    gitlab_token github_token evs repos :
  parse_projects remote parse file_lines gitlab_token github_token
  = (evs, inr repos) →
  ∃ lines,
    file_lines = Some lines ∧
    Forall2 (λ project repo,
               ∃ uri evs', parse project = inr uri ∧
                 parse_project remote uri gitlab_token github_token
                 = (evs', inr repo))
      (project_lines lines) repos.
Proof.
  unfold parse_projects. destruct file_lines as [lines|]; [|done].
  intros Hall. exists lines. split; [done|].
  revert evs repos Hall.
  induction (project_lines lines) as [|project projects IH];
    intros evs repos; cbn [parse_all].
  - intros [= _ <-]. constructor.
  - destruct (parse project) as [e|uri] eqn:Hparse; [done|].
    destruct (parse_project remote uri gitlab_token github_token)
      as [evs1 [e|repo]] eqn:Hp; [done|].
    destruct (parse_all remote parse projects gitlab_token github_token)
      as [evs2 [e|repos']] eqn:Hrest; [done|].
    intros [= _ <-]. constructor; [by eexists _, _|]. by eapply IH.
Qed.

End with_remote.

(** A GitLab server and GitHub that accept every token and know every
    project by the name ["demo"]. *)
Lemma repository_path_by_kind_witness :
  let remote := mkRemote (λ _ _, None) (λ _ _ _, inr "demo")
                  (λ _, None) (λ _ _, inr "demo") in
  ∃ evs repo,
    parse_project remote
      (mkUrl (Some "https") (Some "gitlab.example.org") (Some "/group/project.git"))
      "t1" "t2" = (evs, inr repo) ∧
    repo_path repo = "/group/project.git" ∧
    last evs = Some (GitLabGet "https://gitlab.example.org" "group/project").
Proof.
  intros remote. eexists _, _. split; [reflexivity|].
  destruct (repository_path_by_kind remote
              (mkUrl (Some "https") (Some "gitlab.example.org")
                 (Some "/group/project.git")) "t1" "t2" _ _ eq_refl)
    as (h & raw & [= <-] & [= <-] & _ & Hrepo).
  cbn in Hrepo. destruct Hrepo as (Hp & _ & Hl). by split.
Defined.

Lemma parse_projects_one_repository_per_line_witness :
  let remote := mkRemote (λ _ _, None) (λ _ _ _, inr "demo")
                  (λ _, None) (λ _ _, inr "demo") in
  let parse := λ project : string,
    inr (mkUrl (Some "https") (Some "github.com") (Some project))
    : hook_error + Url in
  ∃ evs repos,
    parse_projects remote parse (Some ["# projects"; ""; " /a/b.git "]) "t1" "t2"
    = (evs, inr repos) ∧ length repos = 1%nat.
Proof.
  intros remote parse. eexists _, _. split; [reflexivity|].
  destruct (parse_projects_one_repository_per_line remote parse
              (Some ["# projects"; ""; " /a/b.git "]) "t1" "t2" _ _ eq_refl)
    as (lines & [= <-] & Hall).
  by apply Forall2_length in Hall.
Defined.

End hooks_extras.

(** ** What the scorer reads, and how a group fails *)

Section more_extras.

Lemma count_kind_by_kinds h k rs :
  ScoreSpec.count_kind h k rs
  = Z.of_nat (length (filter (λ k', k' = k) (map kind (deref h rs)))).
Proof.
  unfold ScoreSpec.count_kind. f_equal.
  induction (deref h rs) as [|x l IH]; [done|].
  cbn [map]. rewrite !filter_cons.
  destruct (decide (kind x = k)); simpl; by rewrite IH.
Qed.

(** X22. The weight of an element is read off its own kind and [end] and
    the kinds of its direct children, taken as a bag: the order of the
    children, their ranges, what hangs under them, and the element's own
    [start] and [parent] play no part. *)
Theorem weight_reads_direct_children_only h h' self self' m :
  kind (h !!! self) = kind (h' !!! self') →
  end_ (h !!! self) = end_ (h' !!! self') →
  map kind (deref h (children (h !!! self)))
    ≡ₚ map kind (deref h' (children (h' !!! self'))) →
  Scorer.compute_weight h self m = Scorer.compute_weight h' self' m.
Proof.
  intros Hk He Hp. rewrite !compute_weight_score.
  unfold ScoreSpec.score, ScoreSpec.terms, ScoreSpec.class_count,
    ScoreSpec.function_count, ScoreSpec.property_field_count.
  rewrite !count_kind_by_kinds, Hk, He. by rewrite !Hp.
Qed.

Lemma weight_reads_direct_children_only_witness :
  Scorer.compute_weight
    (flat_heap [("function", 1, 2); ("class", 3, 9)]%Z) LangSemantics.root
    example_model
  = Scorer.compute_weight
      [ mkLangElement "root" (Some 7%nat) [2; 1]%nat 5 9;
        mkLangElement "function" None [2%nat] 100 200;
        mkLangElement "class" None [] 0 0 ] 0%nat example_model.
Proof.
  apply weight_reads_direct_children_only; [reflexivity|reflexivity|].
  vm_compute. apply Permutation_swap.
Defined.

Variable env : Env.

Lemma mapM_M_cons {A B} (f : A → M B) x l w :
  mapM f (x :: l) w
  = match f x w with
    | (OK y, w1) =>
        match mapM f l w1 with
        | (OK k, w2) => (OK (y :: k), w2)
        | (Err e, w2) => (Err e, w2)
        end
    | (Err e, w1) => (Err e, w1)
    end.
Proof.
  cbn [mapM]. unfold mbind, M_bind, mret, M_ret.
  destruct (f x w) as [[y|e] w1]; [|done].
  by destruct (mapM f l w1) as [[?|?] ?].
Qed.

Lemma mapM_M_app {A B} (f : A → M B) l1 l2 w :
  mapM f (l1 ++ l2) w
  = match mapM f l1 w with
    | (OK ps1, w1) =>
        match mapM f l2 w1 with
        | (OK ps2, w2) => (OK (ps1 ++ ps2), w2)
        | (Err e, w2) => (Err e, w2)
        end
    | (Err e, w1) => (Err e, w1)
    end.
Proof.
  revert w. induction l1 as [|x l1 IH]; intros w.
  - cbn. by destruct (mapM f l2 w) as [[?|?] ?].
  - cbn [app]. rewrite !mapM_M_cons.
    destruct (f x w) as [[y|e] w1]; [|done]. rewrite IH.
    destruct (mapM f l1 w1) as [[ps1|e] w2]; [|done].
    by destruct (mapM f l2 w2) as [[ps2|e] w3].
Qed.

(** X23. A group fails fast: the first file whose lookup or analysis
    raises ends the group with that exception, in the world it left, so
    the files after it are neither looked up nor analysed, no pair is
    returned for the files before it, and what those cached stays
    cached. *)
Theorem group_stops_at_first_failure before file after w ps w1 e w2 :
  mapM (grouped_body env) before w = (OK ps, w1) →
  grouped_body env file w1 = (Err e, w2) →
  compute_semantic_weight_grouped env (mkFileGroup (before ++ file :: after)) w
  = (Err e, w2).
Proof.
  intros Hb Hf. unfold compute_semantic_weight_grouped. cbn [files].
  by rewrite mapM_M_app, Hb, mapM_M_cons, Hf.
Qed.

End more_extras.

Lemma group_stops_at_first_failure_witness :
  ∃ w2,
    compute_semantic_weight_grouped sample_env
      (mkFileGroup ([good_file] ++ bad_file :: [good_file; bin_file]))
      empty_world
    = (Err (CalledProcessError 1), w2) ∧ length (started w2) = 2%nat.
Proof.
  destruct (mapM (grouped_body sample_env) [good_file] empty_world)
    as [[ps|e] w1] eqn:Hb; [|vm_compute in Hb; discriminate].
  destruct (grouped_body sample_env bad_file w1) as [[p|e] w2] eqn:Hf.
  - vm_compute in Hb. injection Hb as <- <-. vm_compute in Hf. discriminate.
  - exists w2.
    rewrite (group_stops_at_first_failure sample_env [good_file] bad_file
               [good_file; bin_file] empty_world ps w1 e w2 Hb Hf).
    vm_compute in Hb. injection Hb as <- <-.
    vm_compute in Hf. injection Hf as <- <-. by split.
Defined.

Lemma project_lines_are_stripped_lines_witness :
  RepositoryHooks.project_lines
    ["# projects"; ""; " https://gitlab.example.org/a/b "; "https://github.com/c/d"]
  = ["https://gitlab.example.org/a/b"; "https://github.com/c/d"].
Proof.
  destruct (project_lines_are_stripped_lines
              ["# projects"; "";
               " https://gitlab.example.org/a/b "; "https://github.com/c/d"])
    as [-> _].
  reflexivity.
Defined.
